(** * Extrapolation of integer sequences by operation tables

    A shallow embedding of [src/math/extrapolate.py] and the proofs of its
    specification.  Python integers are [Z]; Python lists and tuples are
    [list]; the set returned by [solve_seq] is a [gset Z]; exceptions are
    an explicit outcome of every function that can raise. *)

From Stdlib Require Import ZArith Lia.
From stdpp Require Import base list gmap strings pretty.

Local Open Scope Z_scope.

(** ** Outcomes of Python code *)

Module Py.

(** The exceptions the module can meet: [b // a] with [a = 0], an index
    out of range, and [itertools.product] with a negative [repeat]. *)
Inductive exn : Set :=
| ZeroDivisionError
| IndexError
| ValueError.

(** A call either returns a value or raises. *)
Inductive result (A : Type) : Type :=
| Return (a : A)
| Raise (e : exn).

Arguments Return {A} a.
Arguments Raise {A} e.

#[export] Instance result_ret : MRet result := λ A a, Return a.

#[export] Instance result_bind : MBind result := λ A B k m,
  match m with
  | Return a => k a
  | Raise e => Raise e
  end.

(** [l[i]] for a non-negative [i]. *)
Definition index {A} (l : list A) (i : nat) : result A :=
  match l !! i with
  | Some x => Return x
  | None => Raise IndexError
  end.

(** [l[-1]]. *)
Definition index_last {A} (l : list A) : result A :=
  match last l with
  | Some x => Return x
  | None => Raise IndexError
  end.

(** [for x in xs: acc = body(acc, x)], stopping at the first exception. *)
Fixpoint for_each {A B} (body : B → A → result B) (xs : list A) (acc : B)
  : result B :=
  match xs with
  | [] => Return acc
  | x :: xs' => acc' ← body acc x; for_each body xs' acc'
  end.

(** [itertools.product(pool, repeat=n)] as the library documents it:
    [result = [[]]], then [repeat] times
    [result = [x+[y] for x in result for y in pool]]; a negative [repeat]
    raises [ValueError]. *)
Definition product_step {A} (pool : list A) (res : list (list A))
  : list (list A) :=
  x ← res; y ← pool; [x ++ [y]].

Definition product {A} (pool : list A) (repeat : Z) : result (list (list A)) :=
  if repeat <? 0 then Raise ValueError
  else Return (Nat.iter (Z.to_nat repeat) (product_step pool) [[]]).

End Py.

Import Py.

(** ** The program *)

(** A binary operation [(prior, current) -> value]; it may raise. *)
Definition op : Type := Z → Z → result Z.

(** The [ops] / [invops] argument: one operation (not an [Iterable]), or a
    list or tuple of them. *)
Inductive schedule : Type :=
| Single (f : op)
| Many (fs : list op).

(** [if not isinstance(ops, Iterable): ops = [ops for _ in range(n)]]. *)
Definition as_list (n : nat) (ops : schedule) : list op :=
  match ops with
  | Single f => replicate n f
  | Many fs => fs
  end.

(** [all([s[0] == s[i] for i in range(1, len(s))])]: on the empty list the
    comprehension is empty and [s[0]] is never read. *)
Definition is_constant (s : list Z) : bool :=
  match s with
  | [] => true
  | s0 :: rest => forallb (λ si, s0 =? si) rest
  end.

(** [[op(s[i-1], s[i]) for i in range(1, len(s))]], evaluated left to
    right. *)
Fixpoint get_subseq (s : list Z) (f : op) : result (list Z) :=
  match s with
  | [] => Return []
  | a :: t =>
      match t with
      | [] => Return []
      | b :: _ => x ← f a b; r ← get_subseq t f; Return (x :: r)
      end
  end.

(** The loop of [get_subseqs]:
    [while not is_constant(subseqs[-1]) and len(subseqs[-1]) > 1:
       subseqs.append(get_subseq(subseqs[-1], ops[i])); i += 1].
    The counter [i] only ever reads [ops[i]] and moves one step right, so
    the loop is written over [rest = ops[i:]]: [ops[i]] is the head of
    [rest], it is out of range exactly when [rest] is empty, and [i += 1]
    drops that head. *)
Fixpoint subseqs_loop (rest : list op) (subseqs : list (list Z))
  : result (list (list Z)) :=
  row ← index_last subseqs;
  if negb (is_constant row) && bool_decide (1 < length row)%nat then
    match rest with
    | [] => Raise IndexError
    | f :: rest' =>
        row ← index_last subseqs;
        next ← get_subseq row f;
        subseqs_loop rest' (subseqs ++ [next])
    end
  else Return subseqs.

Definition get_subseqs (s : list Z) (ops : schedule)
  : result (list (list Z)) :=
  if bool_decide (length s < 2)%nat then Return []
  else
    let ops := as_list (length s - 1) ops in
    f ← index ops 0;
    row0 ← get_subseq s f;
    subseqs_loop (drop 1 ops) [row0].

(** The same loop with its counter, for reference: [i] is kept, [ops[i]]
    is read by index, and [fuel] bounds the iterations ([None] when it
    runs out).  [subseqs_while_loop] below shows that with
    [len(ops) - i < fuel] it computes [subseqs_loop ops[i:]]. *)
Fixpoint subseqs_while (fuel : nat) (ops : list op)
    (subseqs : list (list Z)) (i : nat) : option (result (list (list Z))) :=
  match index_last subseqs with
  | Raise e => Some (Raise e)
  | Return row =>
      if negb (is_constant row) && bool_decide (1 < length row)%nat then
        match fuel with
        | O => None
        | S fuel' =>
            match index ops i with
            | Raise e => Some (Raise e)
            | Return f =>
                match get_subseq row f with
                | Raise e => Some (Raise e)
                | Return next =>
                    subseqs_while fuel' ops (subseqs ++ [next]) (S i)
                end
            end
        end
      else Some (Return subseqs)
  end.

(** The loop of [next_item], one iteration:
    [r = invops[i](ss[i-1][-1], r)]. *)
Definition next_item_step (ss : list (list Z)) (invops : list op)
    (r : Z) (i : nat) : result Z :=
  inv ← index invops i;
  above ← index ss (i - 1);
  x ← index_last above;
  inv x r.

Definition next_item (s : list Z) (ops invops : schedule) : result Z :=
  ss ← get_subseqs s ops;
  final ← index_last ss;
  r ← index_last final;
  let invops := as_list (length s - 1) invops in
  r ← for_each (next_item_step ss invops)
        (reverse (seq 1 (length ss - 1))) r;
  inv ← index invops 0;
  x ← index_last s;
  inv x r.

(** The palette of [solve_seq]. *)
Definition sub : op := λ a b, Return (b - a).
Definition add : op := λ a b, Return (b + a).
Definition div : op := λ a b,
  if a =? 0 then Raise ZeroDivisionError else Return (b / a).
Definition mul : op := λ a b, Return (b * a).
Definition flip : op := λ a b, Return (if a =? 0 then - b else - a).

(** One iteration of the loop of [solve_seq]: only [ZeroDivisionError] is
    caught. *)
Definition solve_step (s : list Z) (solutions : gset Z)
    (p : list op * list op) : result (gset Z) :=
  match next_item s (Many p.1) (Many p.2) with
  | Return v => Return ({[ v ]} ∪ solutions)
  | Raise ZeroDivisionError => Return solutions
  | Raise e => Raise e
  end.

Definition solve_seq (s : list Z) : result (gset Z) :=
  allops ← product [sub; div; flip] (Z.of_nat (length s) - 1);
  allinvs ← product [add; mul; flip] (Z.of_nat (length s) - 1);
  for_each (solve_step s) (zip allops allinvs) ∅.

(** *** Display

    [printtree] writes to standard output; the model returns the lines it
    prints, in order, each without its newline.  The only calls that can
    raise are the two inner [max], before anything is printed. *)

(** [str(n)] of an integer: its decimal digits, with a leading [-] when it
    is negative. *)
Definition str (n : Z) : string := pretty n.

(** [max(xs)]: [ValueError] on an empty list. *)
Definition max_of (xs : list nat) : result nat :=
  match xs with
  | [] => Raise ValueError
  | x :: xs' => Return (foldl Nat.max x xs')
  end.

(** [' ' * n]. *)
Fixpoint spaces (n : nat) : string :=
  match n with
  | O => ""
  | S n' => " " +:+ spaces n'
  end.

(** [t.center(width)]: [t] unchanged when it is at least [width] long;
    otherwise [marg = width - len(t)] spaces are added,
    [marg // 2 + (marg & width & 1)] of them on the left. *)
Definition center (t : string) (width : nat) : string :=
  if decide (width ≤ String.length t)%nat then t
  else
    let marg := (width - String.length t)%nat in
    let left := (marg / 2 + (if Nat.odd marg && Nat.odd width then 1 else 0))%nat in
    spaces left +:+ t +:+ spaces (marg - left).

(** [' '.join(cells)]. *)
Fixpoint join (cells : list string) : string :=
  match cells with
  | [] => ""
  | c :: cs =>
      match cs with
      | [] => c
      | _ :: _ => c +:+ " " +:+ join cs
      end
  end.

(** [round(pad/2)]: [pad/2] is exact, and a half is rounded to the even
    neighbour. *)
Definition round_half (pad : nat) : nat :=
  if Nat.even pad then (pad / 2)%nat
  else if Nat.even (pad / 2) then (pad / 2)%nat
  else (pad / 2 + 1)%nat.

(** The text of one row: [' '.join([str(n).center(pad) for n in row])]. *)
Definition row_text (pad : nat) (row : list Z) : string :=
  join ((λ n, center (str n) pad) <$> row).

(** [leftpad = pad * i + round(pad/2) - i]; [' ' * leftpad] is empty for a
    negative [leftpad], as the truncated subtraction is. *)
Definition leftpad (pad i : nat) : nat := (pad * i + round_half pad - i)%nat.

Definition printtree (s : list Z) (ss : list (list Z)) : result (list string) :=
  m1 ← max_of ((λ n, String.length (str n)) <$> s);
  m2 ← max_of ((λ n, String.length (str n)) <$> concat ss);
  let pad := Nat.max m1 m2 in
  Return (row_text pad s ::
          imap (λ i row, spaces (leftpad pad i) +:+ row_text pad row) ss).

(** ** Notions used by the specification *)

(** A schedule fits a sequence when it is a single operation or has one
    entry per level, [len(s) - 1] of them. *)
Definition adequate (s : list Z) (ops : schedule) : Prop :=
  match ops with
  | Single _ => True
  | Many fs => length fs = (length s - 1)%nat
  end.

(** The exceptions of an operation all satisfy [P]. *)
Definition raises_only (P : exn → Prop) (f : op) : Prop :=
  ∀ a b e, f a b = Raise e → P e.

Definition schedule_raises_only (P : exn → Prop) (ops : schedule) : Prop :=
  match ops with
  | Single f => raises_only P f
  | Many fs => Forall (raises_only P) fs
  end.

(** The test of the [while] loop, negated: the row ends the table. *)
Definition stops (row : list Z) : Prop :=
  is_constant row = true ∨ (length row ≤ 1)%nat.

(** [grown row rows]: [rows] is what the loop leaves from [row] on; every
    row but the last fails the stopping test and is one longer than the
    row under it, and the last row passes the test. *)
Inductive grown : list Z → list (list Z) → Prop :=
| grown_stop row :
    stops row → grown row [row]
| grown_step row next rows :
    is_constant row = false →
    (1 < length row)%nat →
    S (length next) = length row →
    grown next rows →
    grown row (row :: rows).

(** The values the calls in [rs] returned, in order. *)
Definition returned {A} (rs : list (result A)) : list A :=
  omap (λ r, match r with Return v => Some v | Raise _ => None end) rs.

(** *** The solver as the specification words it

    A tagged palette with a lookup of each operation and of its inverse,
    one enumeration of the schedules, and the set of the predictions that
    succeed. *)
Inductive kind : Set := Subtract | Divide | Flip.

Definition operation (k : kind) : op :=
  match k with Subtract => sub | Divide => div | Flip => flip end.

Definition inverse (k : kind) : op :=
  match k with Subtract => add | Divide => mul | Flip => flip end.

Fixpoint schedules (n : nat) : list (list kind) :=
  match n with
  | O => [[]]
  | S n' => k ← [Subtract; Divide; Flip]; ks ← schedules n'; [k :: ks]
  end.

Definition predict (s : list Z) (ks : list kind) : result Z :=
  next_item s (Many (operation <$> ks)) (Many (inverse <$> ks)).

Definition solve_by_lookup (s : list Z) : gset Z :=
  list_to_set (returned (predict s <$> schedules (length s - 1))).

(** *** Notions used by the further properties *)

(** [built rest row rows]: [rows] is what the loop of [get_subseqs]
    appends from [row] on when it reads its operations from [rest]: each
    row that fails the stopping test is followed by its [get_subseq] under
    the next operation, and the first row that passes the test is the
    last. *)
Inductive built : list op → list Z → list (list Z) → Prop :=
| built_stop rest row :
    stops row → built rest row [row]
| built_step f rest row next rows :
    is_constant row = false →
    (1 < length row)%nat →
    get_subseq row f = Return next →
    built rest next rows →
    built (f :: rest) row (row :: rows).

(** [g] undoes [f]: whenever [g(a, d)] returns [b], [f(a, b)] returns
    [d]. *)
Definition inverts (g f : op) : Prop :=
  ∀ a d b, g a d = Return b → f a b = Return d.

(** [walked gs rows acc]: the walk of [next_item] back up [rows], seeded
    with the last element of the last row and applying at each row above
    the inverse operation of the row below to that row's last element,
    arrives at [acc] on the first of [rows]; [gs] lists the inverse
    operations of the rows after the first. *)
Inductive walked : list op → list (list Z) → Z → Prop :=
| walked_last gs row r :
    last row = Some r → walked gs [row] r
| walked_step g gs row rows x r acc :
    walked gs rows r →
    last row = Some x →
    g x r = Return acc →
    walked (g :: gs) (row :: rows) acc.

(** ** Outcomes and indexing *)

Lemma Return_inj {A} (a b : A) : Return a = Return b → a = b.
Proof. by intros [= ->]. Qed.

Lemma bind_Return {A B} (m : result A) (k : A → result B) (b : B) :
  m ≫= k = Return b ↔ ∃ a, m = Return a ∧ k a = Return b.
Proof.
  destruct m as [a|e]; simpl; split.
  - eauto.
  - by intros (a' & [= <-] & ?).
  - done.
  - by intros (? & ? & ?).
Qed.

Lemma bind_Raise {A B} (m : result A) (k : A → result B) (e : exn) :
  m ≫= k = Raise e ↔ m = Raise e ∨ ∃ a, m = Return a ∧ k a = Raise e.
Proof.
  destruct m as [a|e']; simpl; split.
  - intros H. right. eauto.
  - by intros [?|(a' & [= <-] & ?)].
  - intros [= ->]. by left.
  - by intros [[= ->]|(? & ? & ?)].
Qed.

Lemma index_last_snoc {A} (l : list A) (x : A) :
  index_last (l ++ [x]) = Return x.
Proof. unfold index_last. by rewrite last_snoc. Qed.

Lemma index_last_Return {A} (l : list A) (x : A) :
  index_last l = Return x ↔ ∃ l', l = l' ++ [x].
Proof.
  unfold index_last. split.
  - destruct (last l) as [y|] eqn:E; [|done].
    intros [= ->]. by apply last_Some.
  - intros [l' ->]. by rewrite last_snoc.
Qed.

Lemma index_last_nonempty {A} (l : list A) :
  l ≠ [] → ∃ x, index_last l = Return x.
Proof.
  intros Hl. unfold index_last.
  destruct (last l) as [y|] eqn:E; [eauto|].
  by apply last_None in E.
Qed.

Lemma index_lt {A} (l : list A) (i : nat) :
  (i < length l)%nat → ∃ x, index l i = Return x ∧ l !! i = Some x.
Proof.
  intros Hi. unfold index.
  destruct (lookup_lt_is_Some_2 l i Hi) as [x ->]. eauto.
Qed.

Lemma for_each_Raise {A B} (body : B → A → result B) xs acc e :
  for_each body xs acc = Raise e →
  ∃ acc' x, x ∈ xs ∧ body acc' x = Raise e.
Proof.
  revert acc. induction xs as [|x xs IH]; intros acc; simpl; [done|].
  rewrite bind_Raise. intros [H|(acc' & _ & H)].
  - exists acc, x. split; [left|done].
  - destruct (IH _ H) as (acc'' & y & ? & ?).
    exists acc'', y. split; [by right|done].
Qed.

(** ** Rows and tables *)

Lemma loop_test_true (row : list Z) :
  negb (is_constant row) && bool_decide (1 < length row)%nat = true ↔
  is_constant row = false ∧ (1 < length row)%nat.
Proof.
  rewrite andb_true_iff, negb_true_iff, bool_decide_eq_true. done.
Qed.

Lemma loop_test_false (row : list Z) :
  negb (is_constant row) && bool_decide (1 < length row)%nat = false ↔
  stops row.
Proof.
  unfold stops.
  rewrite andb_false_iff, negb_false_iff, bool_decide_eq_false.
  by rewrite Nat.nlt_ge.
Qed.

Lemma get_subseq_length s f r :
  get_subseq s f = Return r → length r = (length s - 1)%nat.
Proof.
  revert r. induction s as [|a t IH]; intros r; simpl.
  - by intros [= <-].
  - destruct t as [|b t'].
    + by intros [= <-].
    + rewrite bind_Return. intros (x & _ & H).
      apply bind_Return in H as (r' & Hr' & [= <-]).
      apply IH in Hr'. simpl in *. lia.
Qed.

Lemma as_list_length s ops :
  adequate s ops → length (as_list (length s - 1) ops) = (length s - 1)%nat.
Proof. destruct ops; simpl; [by rewrite length_replicate|done]. Qed.

Lemma grown_head row rows : grown row rows → rows !! 0%nat = Some row.
Proof. by destruct 1. Qed.

Lemma grown_not_nil row rows : grown row rows → rows ≠ [].
Proof. by destruct 1. Qed.

Lemma grown_split row rows :
  grown row rows →
  ∃ init final, rows = init ++ [final] ∧ stops final ∧
    Forall (λ r, is_constant r = false ∧ (1 < length r)%nat) init.
Proof.
  induction 1 as [row Hs|row next rows Hc Hl _ _ (init & final & -> & ? & ?)].
  - by exists [], row.
  - exists (row :: init), final. split_and!; [done|done|by constructor].
Qed.

Lemma grown_lookup_length row rows i r :
  grown row rows → rows !! i = Some r → (length r + i)%nat = length row.
Proof.
  intros Hg. revert i.
  induction Hg as [row Hs|row next rows Hc Hl Hn _ IH]; intros i.
  - destruct i as [|i]; simpl; [|done]. intros [= ->]. lia.
  - destruct i as [|i]; simpl; [intros [= ->]; lia|].
    intros Hi. apply IH in Hi. lia.
Qed.

Lemma grown_length row rows :
  grown row rows → (1 ≤ length row → length rows ≤ length row)%nat.
Proof.
  induction 1 as [row Hs|row next rows Hc Hl Hn _ IH]; simpl; lia.
Qed.

Lemma grown_rows_nonempty row rows r :
  grown row rows → (1 ≤ length row)%nat → r ∈ rows → (1 ≤ length r)%nat.
Proof.
  intros Hg Hrow [i Hi]%list_elem_of_lookup.
  pose proof (lookup_lt_Some _ _ _ Hi).
  pose proof (grown_lookup_length _ _ _ _ Hg Hi).
  pose proof (grown_length _ _ Hg Hrow). lia.
Qed.

Lemma subseqs_loop_grown rest pre row tbl :
  subseqs_loop rest (pre ++ [row]) = Return tbl →
  ∃ rows, tbl = pre ++ rows ∧ grown row rows.
Proof.
  revert pre row. induction rest as [|f rest IH]; intros pre row; simpl;
    rewrite index_last_snoc; simpl;
    destruct (negb _ && _) eqn:E; try done.
  - intros [= <-]. exists [row]. split; [done|].
    by apply grown_stop, loop_test_false.
  - apply loop_test_true in E as [Hc Hl].
    rewrite bind_Return. intros (next & Hnext & H).
    apply IH in H as (rows & -> & Hg).
    exists (row :: rows). split; [by rewrite <- app_assoc|].
    apply get_subseq_length in Hnext.
    apply (grown_step row next); [done|done|lia|done].
  - intros [= <-]. exists [row]. split; [done|].
    by apply grown_stop, loop_test_false.
Qed.

Lemma subseqs_while_loop fuel ops subseqs i :
  (length ops - i < fuel)%nat →
  subseqs_while fuel ops subseqs i =
  Some (subseqs_loop (drop i ops) subseqs).
Proof.
  revert subseqs i. induction fuel as [|fuel IH]; intros subseqs i Hfuel;
    [lia|].
  cbn [subseqs_while]. unfold index.
  destruct (ops !! i) as [f|] eqn:Hi.
  - rewrite (drop_S _ _ _ Hi). cbn [subseqs_loop].
    destruct (index_last subseqs) as [row|e]; [|done]. cbn.
    destruct (negb _ && _); [|done].
    destruct (get_subseq row f) as [next|e]; [|done]. cbn.
    apply IH. apply lookup_lt_Some in Hi. lia.
  - rewrite (drop_ge _ _ (proj1 (lookup_ge_None _ _) Hi)). cbn [subseqs_loop].
    destruct (index_last subseqs) as [row|e]; [|done]. cbn.
    by destruct (negb _ && _).
Qed.

Lemma get_subseqs_lt_2 s ops :
  (length s < 2)%nat → get_subseqs s ops = Return [].
Proof.
  intros Hs. unfold get_subseqs. by rewrite bool_decide_eq_true_2.
Qed.

Lemma get_subseqs_grown s ops tbl :
  (2 ≤ length s)%nat →
  get_subseqs s ops = Return tbl →
  ∃ row0, S (length row0) = length s ∧ grown row0 tbl.
Proof.
  intros Hs. unfold get_subseqs. rewrite bool_decide_eq_false_2 by lia.
  simpl. rewrite bind_Return. intros (f & _ & H).
  apply bind_Return in H as (row0 & Hrow0 & H).
  apply (subseqs_loop_grown _ []) in H as (rows & -> & Hg).
  apply get_subseq_length in Hrow0.
  exists row0. split; [lia|done].
Qed.

(** ** The predictor raises only what its operations raise *)

(** Throughout, [P] bounds the exceptions of the operations in use; the
    table builder and the predictor add none of their own when the
    schedules fit the sequence. *)
Section raises.
Context (P : exn → Prop).

Lemma get_subseq_Raise s f e :
  raises_only P f → get_subseq s f = Raise e → P e.
Proof.
  intros Hf. induction s as [|a t IH]; simpl; [done|].
  destruct t as [|b t']; [done|].
  rewrite bind_Raise. intros [H|(x & _ & H)]; [by eapply Hf|].
  apply bind_Raise in H as [H|(r & _ & H)]; [by apply IH|done].
Qed.

Lemma as_list_raises_only n ops :
  schedule_raises_only P ops → Forall (raises_only P) (as_list n ops).
Proof. destruct ops; simpl; [apply Forall_replicate|done]. Qed.

Lemma subseqs_loop_Raise rest pre row e :
  Forall (raises_only P) rest →
  (length row ≤ S (length rest))%nat →
  subseqs_loop rest (pre ++ [row]) = Raise e → P e.
Proof.
  revert pre row. induction rest as [|f rest IH]; intros pre row Hfs Hlen;
    simpl; rewrite index_last_snoc; simpl;
    destruct (negb _ && _) eqn:E; try done.
  - apply loop_test_true in E. simpl in Hlen. lia.
  - apply Forall_cons in Hfs as [Hf Hfs].
    rewrite bind_Raise. intros [H|(next & Hnext & H)].
    + by eapply get_subseq_Raise.
    + apply get_subseq_length in Hnext.
      eapply IH; [done| |done]. simpl in Hlen. lia.
Qed.

Lemma get_subseqs_Raise s ops e :
  (2 ≤ length s)%nat →
  adequate s ops →
  schedule_raises_only P ops →
  get_subseqs s ops = Raise e → P e.
Proof.
  intros Hs Hlen HP. unfold get_subseqs.
  rewrite bool_decide_eq_false_2 by lia. simpl.
  apply as_list_length in Hlen.
  apply (as_list_raises_only (length s - 1)) in HP.
  destruct (as_list _ ops) as [|f rest]; simpl in *; [lia|].
  apply Forall_cons in HP as [Hf Hrest].
  rewrite bind_Raise. intros [H|(row0 & Hrow0 & H)].
  - by eapply get_subseq_Raise.
  - apply get_subseq_length in Hrow0.
    rewrite drop_0 in H.
    eapply (subseqs_loop_Raise rest []); [done| |done]. lia.
Qed.

Lemma next_item_step_Raise row0 ss invops r i e :
  grown row0 ss →
  (1 ≤ length row0)%nat →
  (length row0 ≤ length invops)%nat →
  Forall (raises_only P) invops →
  i ∈ seq 1 (length ss - 1) →
  next_item_step ss invops r i = Raise e → P e.
Proof.
  intros Hg Hrow0 Hinv HP [Hi1 Hi2]%elem_of_seq.
  pose proof (grown_length _ _ Hg Hrow0) as Hss.
  unfold next_item_step.
  destruct (index_lt invops i) as (inv & -> & Hinv_i); [lia|].
  destruct (index_lt ss (i - 1)) as (above & -> & Habove); [lia|].
  simpl.
  destruct (index_last_nonempty above) as [x ->].
  { apply list_elem_of_lookup_2 in Habove.
    pose proof (grown_rows_nonempty _ _ _ Hg Hrow0 Habove).
    intros ->. simpl in *. lia. }
  simpl. eapply Forall_lookup_1 in HP; [|done]. apply HP.
Qed.

Lemma next_item_Raise s ops invops e :
  (2 ≤ length s)%nat →
  adequate s ops →
  adequate s invops →
  schedule_raises_only P ops →
  schedule_raises_only P invops →
  next_item s ops invops = Raise e → P e.
Proof.
  intros Hs Hops Hinvs HPops HPinvs. unfold next_item.
  rewrite bind_Raise. intros [H|(ss & Hss & H)].
  { exact (get_subseqs_Raise s ops e Hs Hops HPops H). }
  apply get_subseqs_grown in Hss as (row0 & Hrow0 & Hg); [|done].
  destruct (index_last_nonempty ss) as [final Hfinal].
  { by eapply grown_not_nil. }
  rewrite Hfinal in H. simpl in H.
  destruct (index_last_nonempty final) as [r Hr].
  { apply index_last_Return in Hfinal as [ss' ->].
    assert (final ∈ ss' ++ [final]) as Hin by set_solver.
    eapply grown_rows_nonempty in Hin; [|done|lia].
    intros ->. simpl in Hin. lia. }
  rewrite Hr in H. simpl in H.
  apply as_list_length in Hinvs.
  apply (as_list_raises_only (length s - 1)) in HPinvs.
  apply bind_Raise in H as [H|(r' & _ & H)].
  - apply for_each_Raise in H as (acc & i & Hi & H).
    rewrite elem_of_reverse in Hi.
    apply (next_item_step_Raise row0 ss (as_list (length s - 1) invops)
             acc i e Hg); [lia|lia|done..].
  - destruct (index_lt (as_list (length s - 1) invops) 0)
      as (inv & Hinv & Hinv0); [lia|].
    rewrite Hinv in H. simpl in H.
    destruct (index_last_nonempty s) as [x Hx].
    { intros ->. simpl in Hs. lia. }
    rewrite Hx in H. simpl in H.
    eapply Forall_lookup_1 in HPinvs; [|done]. by eapply HPinvs.
Qed.
End raises.

(** ** The enumeration of schedules *)

Lemma elem_of_product_step {A} (pool : list A) res t :
  t ∈ product_step pool res ↔ ∃ x y, t = x ++ [y] ∧ x ∈ res ∧ y ∈ pool.
Proof.
  unfold product_step. rewrite list_elem_of_bind. split.
  - intros (x & Ht & Hx). apply list_elem_of_bind in Ht as (y & Ht & Hy).
    apply list_elem_of_singleton in Ht. eauto.
  - intros (x & y & -> & Hx & Hy). exists x. split; [|done].
    apply list_elem_of_bind. exists y. split; [|done].
    by apply list_elem_of_singleton.
Qed.

Lemma elem_of_product_iter {A} (pool : list A) n t :
  t ∈ Nat.iter n (product_step pool) [[]] ↔
  length t = n ∧ Forall (λ y, y ∈ pool) t.
Proof.
  revert t. induction n as [|n IH]; intros t; simpl.
  - rewrite list_elem_of_singleton. split.
    + by intros ->.
    + intros [Hlen _]. by destruct t.
  - rewrite elem_of_product_step. split.
    + intros (x & y & -> & [Hlen Hall]%IH & Hy).
      rewrite length_app, Forall_app, Forall_singleton. simpl.
      split_and!; [lia|done|done].
    + intros [Hlen Hall].
      destruct (decide (t = [])) as [->|Hne]; [by simpl in Hlen|].
      apply exists_last in Hne as (x & y & ->).
      rewrite length_app in Hlen. simpl in Hlen.
      apply Forall_app in Hall as [Hx Hy].
      rewrite Forall_singleton in Hy.
      exists x, y. split_and!; [done| |done]. apply IH. split; [lia|done].
Qed.

Lemma product_step_fmap {A B} (f : A → B)
    (pool : list A) (res : list (list A)) :
  product_step (f <$> pool) (fmap (M:=list) f <$> res) =
  fmap (M:=list) f <$> product_step pool res.
Proof.
  unfold product_step.
  induction res as [|x res IH]; [done|].
  csimpl. rewrite fmap_app, <- IH. f_equal.
  clear IH. induction pool as [|y pool IH]; [done|].
  csimpl. f_equal; [by rewrite fmap_app|]. apply IH.
Qed.

Lemma product_iter_fmap {A B} (f : A → B) (pool : list A) n :
  Nat.iter n (product_step (f <$> pool)) [[]] =
  fmap (M:=list) f <$> Nat.iter n (product_step pool) [[]].
Proof.
  induction n as [|n IH]; [done|].
  simpl. by rewrite IH, product_step_fmap.
Qed.

Lemma zip_fmap_same {A B C} (f : A → B) (g : A → C) (l : list A) :
  zip (f <$> l) (g <$> l) = (λ x, (f x, g x)) <$> l.
Proof. induction l as [|x l IH]; [done|]. csimpl. by rewrite IH. Qed.

Lemma product_Return {A} (pool : list A) (n : nat) :
  (1 ≤ n)%nat →
  product pool (Z.of_nat n - 1) =
  Return (Nat.iter (n - 1) (product_step pool) [[]]).
Proof.
  intros Hn. unfold product.
  destruct (Z.ltb_spec (Z.of_nat n - 1) 0) as [?|_]; [lia|].
  do 3 f_equal. lia.
Qed.

Lemma elem_of_schedules n ks : ks ∈ schedules n ↔ length ks = n.
Proof.
  revert ks. induction n as [|n IH]; intros ks; simpl.
  - rewrite list_elem_of_singleton. split; [by intros ->|by destruct ks].
  - rewrite !elem_of_app. setoid_rewrite list_elem_of_bind.
    setoid_rewrite list_elem_of_singleton. split.
    + intros [(t & -> & Ht%IH)|[(t & -> & Ht%IH)|[(t & -> & Ht%IH)|[]%elem_of_nil]]];
        simpl; lia.
    + destruct ks as [|k ks]; [done|]. intros [= Hlen%IH].
      destruct k; eauto 8.
Qed.

Lemma elem_of_kind_palette (k : kind) : k ∈ [Subtract; Divide; Flip].
Proof. destruct k; set_solver. Qed.

(** The two enumerations list the same schedules. *)
Lemma schedules_product n ks :
  ks ∈ Nat.iter n (product_step [Subtract; Divide; Flip]) [[]] ↔
  ks ∈ schedules n.
Proof.
  rewrite elem_of_product_iter, elem_of_schedules. split; [by intros [? _]|].
  intros Hlen. split; [done|].
  apply Forall_forall. intros k _. apply elem_of_kind_palette.
Qed.

(** The [zip] of the two products of [solve_seq] pairs every schedule with
    its inverses level by level. *)
Lemma zip_products n :
  zip (Nat.iter n (product_step [sub; div; flip]) [[]])
      (Nat.iter n (product_step [add; mul; flip]) [[]]) =
  (λ ks : list kind, (operation <$> ks, inverse <$> ks)) <$>
    Nat.iter n (product_step [Subtract; Divide; Flip]) [[]].
Proof.
  change [sub; div; flip] with (operation <$> [Subtract; Divide; Flip]).
  change [add; mul; flip] with (inverse <$> [Subtract; Divide; Flip]).
  by rewrite !product_iter_fmap, zip_fmap_same.
Qed.

(** ** The solver *)

Lemma operation_raises k :
  raises_only (λ e, e = ZeroDivisionError) (operation k).
Proof.
  intros a b e. destruct k; simpl; unfold sub, div, flip; try done.
  by destruct (a =? 0); intros [= <-].
Qed.

Lemma inverse_raises k :
  raises_only (λ e, e = ZeroDivisionError) (inverse k).
Proof. intros a b e. by destruct k. Qed.

Lemma predict_Raise s ks e :
  (2 ≤ length s)%nat →
  length ks = (length s - 1)%nat →
  predict s ks = Raise e → e = ZeroDivisionError.
Proof.
  intros Hs Hks.
  apply (next_item_Raise (λ e, e = ZeroDivisionError)); simpl.
  - done.
  - by rewrite length_fmap.
  - by rewrite length_fmap.
  - apply Forall_fmap, Forall_true, operation_raises.
  - apply Forall_fmap, Forall_true, inverse_raises.
Qed.

Lemma elem_of_returned {A} (rs : list (result A)) v :
  v ∈ returned rs ↔ Return v ∈ rs.
Proof.
  unfold returned. rewrite list_elem_of_omap. split.
  - intros ([v'|e] & Hin & [= <-]). done.
  - intros Hin. by exists (Return v).
Qed.

Lemma solve_step_Return s acc p v :
  next_item s (Many p.1) (Many p.2) = Return v →
  solve_step s acc p = Return ({[ v ]} ∪ acc).
Proof. unfold solve_step. by intros ->. Qed.

Lemma solve_step_skip s acc p :
  next_item s (Many p.1) (Many p.2) = Raise ZeroDivisionError →
  solve_step s acc p = Return acc.
Proof. unfold solve_step. by intros ->. Qed.

Lemma solve_loop s ps acc :
  (∀ p e, p ∈ ps →
     next_item s (Many p.1) (Many p.2) = Raise e → e = ZeroDivisionError) →
  for_each (solve_step s) ps acc =
  Return (list_to_set
            (returned ((λ p, next_item s (Many p.1) (Many p.2)) <$> ps))
          ∪ acc).
Proof.
  revert acc. induction ps as [|p ps IH]; intros acc Hps.
  - cbn. by rewrite union_empty_l_L.
  - assert (∀ q e, q ∈ ps →
      next_item s (Many q.1) (Many q.2) = Raise e → e = ZeroDivisionError)
      as Hps' by (intros q e Hq; apply Hps; by right).
    rewrite fmap_cons. cbn [for_each].
    destruct (next_item s (Many p.1) (Many p.2)) as [v|e] eqn:E.
    + rewrite (solve_step_Return _ _ _ _ E). cbn [mbind result_bind].
      rewrite IH by done. f_equal. unfold returned. cbn [omap list_omap].
      rewrite (assoc_L (∪)). f_equal. apply (comm_L (∪)).
    + rewrite (Hps p e) in E by (done || by left).
      rewrite (solve_step_skip _ _ _ E). cbn [mbind result_bind].
      by rewrite IH.
Qed.

Lemma solve_seq_product s :
  (2 ≤ length s)%nat →
  solve_seq s =
  Return (list_to_set (returned (predict s <$>
    Nat.iter (length s - 1) (product_step [Subtract; Divide; Flip]) [[]]))).
Proof.
  intros Hs. unfold solve_seq.
  rewrite !product_Return by lia. simpl.
  rewrite zip_products, solve_loop.
  - by rewrite union_empty_r_L, <- list_fmap_compose.
  - intros p e (ks & -> & [Hlen _]%elem_of_product_iter)%list_elem_of_fmap.
    by apply predict_Raise.
Qed.

(** ** The claims of the specification *)

(** C1. [solve([1, 2, 6, 24])] is claimed (and asserted by
    [test_find_solutions]) to be [{67, 96, 98, 120}].  The code, run over
    all 27 schedules of subtract, integer-divide and sign-flip, returns
    eight values: the four expected ones, which the schedules without a
    sign-flip produce, and [-96], [-24], [6], [28], which the schedules
    with a sign-flip add; no schedule divides by zero. *)
Theorem solve_seq_1_2_6_24 :
  solve_seq [1; 2; 6; 24] = Return {[ -96; -24; 6; 28; 67; 96; 98; 120 ]} ∧
  solve_seq [1; 2; 6; 24] ≠ Return {[ 67; 96; 98; 120 ]}.
Proof.
  assert (solve_seq [1; 2; 6; 24] =
          Return {[ -96; -24; 6; 28; 67; 96; 98; 120 ]}) as E
    by (vm_compute; reflexivity).
  split; [exact E|].
  rewrite E. intros H%Return_inj.
  assert (28 ∈ ({[ 67; 96; 98; 120 ]} : gset Z)) as H28.
  { rewrite <- H. rewrite !elem_of_union, !elem_of_singleton. tauto. }
  rewrite !elem_of_union, !elem_of_singleton in H28. lia.
Qed.

(** C2. [next_item([6, 9, 2, 5], diff, diff_inverse)] is [38]: the
    difference table is [[3, -7, 3], [-10, 10], [20]], its last row has one
    element, that element seeds the walk back up, and the walk gives 38. *)
Theorem next_item_6_9_2_5 :
  get_subseqs [6; 9; 2; 5] (Single sub) =
    Return [[3; -7; 3]; [-10; 10]; [20]] ∧
  next_item [6; 9; 2; 5] (Single sub) (Single add) = Return 38.
Proof. split; reflexivity. Qed.

(** C3. For every sequence of length at least 2, the two Cartesian
    products that [solve_seq] enumerates independently and zips are, pair
    by pair, one product of palette entries with each entry looked up as
    an operation on the left and as its inverse on the right; and
    [solve_seq] returns the set of the successful predictions over all
    schedules of [len(s) - 1] palette entries paired that way. *)
Theorem solve_seq_pairs_by_lookup (s : list Z) :
  (2 ≤ length s)%nat →
  (∃ kss allops allinvs,
     product [Subtract; Divide; Flip] (Z.of_nat (length s) - 1) = Return kss ∧
     product [sub; div; flip] (Z.of_nat (length s) - 1) = Return allops ∧
     product [add; mul; flip] (Z.of_nat (length s) - 1) = Return allinvs ∧
     zip allops allinvs =
       (λ ks : list kind, (operation <$> ks, inverse <$> ks)) <$> kss) ∧
  solve_seq s = Return (solve_by_lookup s).
Proof.
  intros Hs. split.
  - eexists _, _, _. rewrite !product_Return by lia.
    split_and!; [done|done|done|]. apply zip_products.
  - rewrite solve_seq_product by done. f_equal.
    unfold solve_by_lookup. apply set_eq. intros v.
    rewrite !elem_of_list_to_set, !elem_of_returned, !list_elem_of_fmap.
    by setoid_rewrite schedules_product.
Qed.

Lemma solve_seq_pairs_by_lookup_witness :
  (∃ kss allops allinvs,
     product [Subtract; Divide; Flip] (Z.of_nat (length [1; 2; 6; 24]) - 1)
       = Return kss ∧
     product [sub; div; flip] (Z.of_nat (length [1; 2; 6; 24]) - 1)
       = Return allops ∧
     product [add; mul; flip] (Z.of_nat (length [1; 2; 6; 24]) - 1)
       = Return allinvs ∧
     zip allops allinvs =
       (λ ks : list kind, (operation <$> ks, inverse <$> ks)) <$> kss) ∧
  solve_seq [1; 2; 6; 24] = Return (solve_by_lookup [1; 2; 6; 24]).
Proof. apply (solve_seq_pairs_by_lookup [1; 2; 6; 24]). simpl; lia. Defined.

(** C4, as the code has it. [flip(a, flip(a, b)) == b] holds exactly when
    [a == 0] or [b == -a]: for a non-zero [a] the operation forgets [b]. *)
Theorem flip_flip_iff (a b : Z) :
  flip a b ≫= flip a = Return b ↔ a = 0 ∨ b = - a.
Proof.
  unfold flip. simpl. destruct (Z.eqb_spec a 0) as [->|Ha].
  - split; [by left|]. intros _. f_equal. lia.
  - split.
    + intros [= H]. right. lia.
    + by intros [?| ->].
Qed.

(** C4, as claimed, fails at [a = 1], [b = 0]: [flip(1, flip(1, 0))] is
    [-1]. *)
Lemma flip_flip_counterexample :
  flip 1 0 ≫= flip 1 ≠ Return 0.
Proof. intros [= H]. Qed.

(** C5. For every integer sequence of length at least 2, [solve_seq]
    returns a set: both products are built, every schedule either predicts
    a value or raises [ZeroDivisionError], the schedules that raise add
    nothing, and the set holds exactly the predictions of the others. *)
Theorem solve_seq_returns (s : list Z) :
  (2 ≤ length s)%nat →
  ∃ allops allinvs sols,
    product [sub; div; flip] (Z.of_nat (length s) - 1) = Return allops ∧
    product [add; mul; flip] (Z.of_nat (length s) - 1) = Return allinvs ∧
    solve_seq s = Return sols ∧
    (∀ p e, p ∈ zip allops allinvs →
       next_item s (Many p.1) (Many p.2) = Raise e →
       e = ZeroDivisionError) ∧
    (∀ v, v ∈ sols ↔
       ∃ p, p ∈ zip allops allinvs ∧
            next_item s (Many p.1) (Many p.2) = Return v).
Proof.
  intros Hs. eexists _, _, _. split_and!.
  - apply product_Return. lia.
  - apply product_Return. lia.
  - by apply solve_seq_product.
  - rewrite zip_products.
    intros p e (ks & -> & [Hlen _]%elem_of_product_iter)%list_elem_of_fmap.
    by apply predict_Raise.
  - intros v. rewrite zip_products, elem_of_list_to_set, elem_of_returned.
    rewrite list_elem_of_fmap. setoid_rewrite list_elem_of_fmap. split.
    + intros (ks & Hv & Hks). eexists. split; [by exists ks|done].
    + intros (p & (ks & -> & Hks) & Hv). by exists ks.
Qed.

Lemma solve_seq_returns_witness :
  ∃ allops allinvs sols,
    product [sub; div; flip] (Z.of_nat (length [0; 1]) - 1) = Return allops ∧
    product [add; mul; flip] (Z.of_nat (length [0; 1]) - 1) = Return allinvs ∧
    solve_seq [0; 1] = Return sols ∧
    (∀ p e, p ∈ zip allops allinvs →
       next_item [0; 1] (Many p.1) (Many p.2) = Raise e →
       e = ZeroDivisionError) ∧
    (∀ v, v ∈ sols ↔
       ∃ p, p ∈ zip allops allinvs ∧
            next_item [0; 1] (Many p.1) (Many p.2) = Return v).
Proof. apply (solve_seq_returns [0; 1]). simpl; lia. Defined.

(** C6. For a sequence of length at least 2 and an adequate schedule,
    [get_subseqs] returns a table whenever no operation raises, and the
    table it returns is not empty, its last row is constant or has at most
    one element, and every earlier row is not constant and has more than
    one element. *)
Theorem get_subseqs_stops_at_first (s : list Z) (ops : schedule) :
  (2 ≤ length s)%nat →
  adequate s ops →
  (schedule_raises_only (λ _, False) ops →
     ∃ tbl, get_subseqs s ops = Return tbl) ∧
  ∀ tbl, get_subseqs s ops = Return tbl →
    tbl ≠ [] ∧
    ∃ init final,
      tbl = init ++ [final] ∧
      (is_constant final = true ∨ (length final ≤ 1)%nat) ∧
      Forall (λ r, is_constant r = false ∧ (1 < length r)%nat) init.
Proof.
  intros Hs Hops. split.
  - intros Hnone. destruct (get_subseqs s ops) as [tbl|e] eqn:E; [eauto|].
    by destruct (get_subseqs_Raise (λ _, False) s ops e).
  - intros tbl Htbl.
    apply get_subseqs_grown in Htbl as (row0 & _ & Hg); [|done].
    split; [by eapply grown_not_nil|by apply (grown_split row0)].
Qed.

Lemma get_subseqs_stops_at_first_witness :
  (schedule_raises_only (λ _, False) (Many [sub; flip; sub]) →
     ∃ tbl, get_subseqs [1; 2; 6; 24] (Many [sub; flip; sub]) = Return tbl) ∧
  ∀ tbl, get_subseqs [1; 2; 6; 24] (Many [sub; flip; sub]) = Return tbl →
    tbl ≠ [] ∧
    ∃ init final,
      tbl = init ++ [final] ∧
      (is_constant final = true ∨ (length final ≤ 1)%nat) ∧
      Forall (λ r, is_constant r = false ∧ (1 < length r)%nat) init.
Proof.
  apply (get_subseqs_stops_at_first [1; 2; 6; 24] (Many [sub; flip; sub])).
  - simpl; lia.
  - reflexivity.
Defined.

(** C7. In every table [get_subseqs] returns, row 0 has [len(s) - 1]
    elements, every other row has one element less than the row above it,
    and no row is empty. *)
Theorem get_subseqs_row_lengths (s : list Z) (ops : schedule)
    (tbl : list (list Z)) :
  get_subseqs s ops = Return tbl →
  (∀ r, tbl !! 0%nat = Some r →
     Z.of_nat (length r) = Z.of_nat (length s) - 1) ∧
  (∀ i above r, tbl !! i = Some above → tbl !! S i = Some r →
     Z.of_nat (length r) = Z.of_nat (length above) - 1) ∧
  (∀ r, r ∈ tbl → r ≠ []).
Proof.
  intros Htbl.
  destruct (decide (length s < 2)%nat) as [Hs|Hs].
  { rewrite get_subseqs_lt_2 in Htbl by done.
    apply Return_inj in Htbl as <-.
    split_and!; [done|done|]. by intros r ?%elem_of_nil. }
  apply get_subseqs_grown in Htbl as (row0 & Hrow0 & Hg); [|lia].
  split_and!.
  - intros r Hr. rewrite (grown_head _ _ Hg) in Hr.
    apply (inj Some) in Hr as <-. lia.
  - intros i above r Ha Hr.
    pose proof (grown_lookup_length _ _ _ _ Hg Ha).
    pose proof (grown_lookup_length _ _ _ _ Hg Hr). lia.
  - intros r Hr ->.
    apply (grown_rows_nonempty _ _ _ Hg) in Hr; simpl in Hr; lia.
Qed.

Lemma get_subseqs_row_lengths_witness :
  (∀ r, [[3; -7; 3]; [-10; 10]; [20]] !! 0%nat = Some r →
     Z.of_nat (length r) = Z.of_nat (length [6; 9; 2; 5]) - 1) ∧
  (∀ i above r,
     [[3; -7; 3]; [-10; 10]; [20]] !! i = Some above →
     [[3; -7; 3]; [-10; 10]; [20]] !! S i = Some r →
     Z.of_nat (length r) = Z.of_nat (length above) - 1) ∧
  (∀ r : list Z, r ∈ [[3; -7; 3]; [-10; 10]; [20]] → r ≠ []).
Proof.
  apply (get_subseqs_row_lengths [6; 9; 2; 5] (Single sub)). reflexivity.
Defined.

(** C8. For a sequence with fewer than two elements and any schedule,
    [get_subseqs] returns the empty table. *)
Theorem get_subseqs_short (s : list Z) (ops : schedule) :
  (length s < 2)%nat → get_subseqs s ops = Return [].
Proof. apply get_subseqs_lt_2. Qed.

Lemma get_subseqs_short_witness :
  (length [7] < 2)%nat ∧ get_subseqs [7] (Many []) = Return [].
Proof.
  split; [simpl; lia|].
  apply (get_subseqs_short [7] (Many [])). simpl; lia.
Defined.

(** C9. For a sequence with fewer than two elements and any pair of
    schedules, [next_item] returns no value: it raises [IndexError], from
    [ss[-1]] on the empty table. *)
Theorem next_item_short (s : list Z) (ops invops : schedule) :
  (length s < 2)%nat → next_item s ops invops = Raise IndexError.
Proof.
  intros Hs. unfold next_item. by rewrite get_subseqs_lt_2.
Qed.

Lemma next_item_short_witness :
  (length [7] < 2)%nat ∧
  next_item [7] (Single sub) (Single add) = Raise IndexError.
Proof.
  split; [simpl; lia|].
  apply (next_item_short [7] (Single sub) (Single add)). simpl; lia.
Defined.

(** C10. For a sequence of length at least 2 and a schedule that is one
    operation or a list of [len(s) - 1] operations, [get_subseqs] reads no
    schedule entry out of range: unless an operation itself raises
    [IndexError], the call does not, and a returned table has at most
    [len(s) - 1] rows, so the entries read are at indices 0 to
    [len(s) - 2]. *)
Theorem get_subseqs_index_in_range (s : list Z) (ops : schedule) :
  (2 ≤ length s)%nat →
  adequate s ops →
  schedule_raises_only (λ e, e ≠ IndexError) ops →
  get_subseqs s ops ≠ Raise IndexError ∧
  ∀ tbl, get_subseqs s ops = Return tbl →
    (1 ≤ length tbl ≤ length s - 1)%nat.
Proof.
  intros Hs Hlen Hops. split.
  - intros H.
    by apply (get_subseqs_Raise (λ e, e ≠ IndexError) s ops IndexError).
  - intros tbl Htbl.
    apply get_subseqs_grown in Htbl as (row0 & Hrow0 & Hg); [|done].
    pose proof (grown_length _ _ Hg).
    pose proof (grown_not_nil _ _ Hg).
    destruct tbl; [done|]. simpl in *. lia.
Qed.

Lemma get_subseqs_index_in_range_witness :
  get_subseqs [1; 2; 6; 24] (Many [sub; sub; div]) ≠ Raise IndexError ∧
  ∀ tbl, get_subseqs [1; 2; 6; 24] (Many [sub; sub; div]) = Return tbl →
    (1 ≤ length tbl ≤ length [1; 2; 6; 24] - 1)%nat.
Proof.
  apply (get_subseqs_index_in_range [1; 2; 6; 24] (Many [sub; sub; div])).
  - simpl; lia.
  - reflexivity.
  - repeat constructor; intros a b e; unfold sub, div;
      try destruct (a =? 0); intros [= <-]; discriminate.
Defined.

(** ** Further properties of the code *)

(** *** [is_constant] and [get_subseq] *)

Lemma get_subseq_cons2 a b t f :
  get_subseq (a :: b :: t) f =
  x ← f a b; r ← get_subseq (b :: t) f; Return (x :: r).
Proof. done. Qed.

Lemma is_constant_spec (s : list Z) :
  is_constant s = true ↔ ∀ x y, x ∈ s → y ∈ s → x = y.
Proof.
  destruct s as [|s0 rest]; simpl.
  - split; [|done]. by intros _ x y ?%elem_of_nil.
  - rewrite forallb_forall. split.
    + intros H x y Hx Hy.
      assert (∀ z, z ∈ s0 :: rest → s0 = z) as Heq.
      { intros z [->|Hz]%elem_of_cons; [done|].
        apply Z.eqb_eq, H. by apply list_elem_of_In. }
      by rewrite <- (Heq x Hx), <- (Heq y Hy).
    + intros H z Hz%list_elem_of_In. apply Z.eqb_eq, H; [by left|by right].
Qed.

(** [is_constant] answers whether any two elements of the list are equal;
    the empty list and a singleton are constant. *)
Theorem is_constant_iff (s : list Z) :
  is_constant s = true ↔ ∀ x y, x ∈ s → y ∈ s → x = y.
Proof. apply is_constant_spec. Qed.

Lemma get_subseq_Return_spec (s : list Z) (f : op) (r : list Z) :
  get_subseq s f = Return r ↔
  length r = (length s - 1)%nat ∧
  ∀ i a b, s !! i = Some a → s !! S i = Some b →
    ∃ x, r !! i = Some x ∧ f a b = Return x.
Proof.
  revert r. induction s as [|a t IH]; intros r.
  - simpl. split.
    + intros [= <-]. split; [done|]. intros i a b Hi. by rewrite lookup_nil in Hi.
    + intros [Hlen _]. by destruct r.
  - destruct t as [|b t'].
    + simpl. split.
      * intros [= <-]. split; [done|]. by intros [|i] a' b' _ ?.
      * intros [Hlen _]. by destruct r.
    + rewrite get_subseq_cons2, bind_Return. split.
      * intros (x & Hx & H). apply bind_Return in H as (r' & Hr' & [= <-]).
        apply IH in Hr' as [Hlen Hall]. split; [simpl in *; lia|].
        intros [|i] a' b' Ha' Hb'; simpl in *.
        -- injection Ha' as <-. injection Hb' as <-. eauto.
        -- by apply Hall.
      * intros [Hlen Hall]. destruct r as [|x r']; [done|].
        destruct (Hall 0%nat a b eq_refl eq_refl) as (x' & [= <-] & Hx).
        exists x. split; [done|].
        assert (get_subseq (b :: t') f = Return r') as ->; [|done].
        apply IH. split; [simpl in *; lia|].
        intros i a' b' Ha' Hb'. apply (Hall (S i) a' b' Ha' Hb').
Qed.

(** [get_subseq] returns [r] exactly when [r] has one element less than
    [s] (none when [s] is empty) and [r[i]] is what the operation returns
    on [(s[i], s[i+1])]: the docstring's [new[i] = old[i+1] (op) old[i]]. *)
Theorem get_subseq_Return_iff (s : list Z) (f : op) (r : list Z) :
  get_subseq s f = Return r ↔
  length r = (length s - 1)%nat ∧
  ∀ i a b, s !! i = Some a → s !! S i = Some b →
    ∃ x, r !! i = Some x ∧ f a b = Return x.
Proof. apply get_subseq_Return_spec. Qed.

(** When [get_subseq] raises, the exception is the one the operation
    raises on the first adjacent pair on which it raises. *)
Theorem get_subseq_Raise_first (s : list Z) (f : op) (e : exn) :
  get_subseq s f = Raise e →
  ∃ i a b, s !! i = Some a ∧ s !! S i = Some b ∧ f a b = Raise e ∧
    ∀ j a' b', (j < i)%nat → s !! j = Some a' → s !! S j = Some b' →
      ∃ x, f a' b' = Return x.
Proof.
  induction s as [|a t IH]; [done|].
  destruct t as [|b t']; [done|].
  rewrite get_subseq_cons2, bind_Raise. intros [H|(x & Hx & H)].
  - exists 0%nat, a, b. split_and!; [done|done|done|]. intros; lia.
  - apply bind_Raise in H as [H|(r & _ & H)]; [|done].
    destruct (IH H) as (i & a' & b' & Ha' & Hb' & Hf & Hbefore).
    exists (S i), a', b'. split_and!; [done|done|done|].
    intros [|j] a'' b'' Hj Ha'' Hb''; simpl in *.
    + injection Ha'' as <-. injection Hb'' as <-. eauto.
    + apply (Hbefore j a'' b''); [lia|done|done].
Qed.

Lemma get_subseq_Raise_first_witness :
  ∃ i a b, [4; 0; 3; 0; 1] !! i = Some a ∧ [4; 0; 3; 0; 1] !! S i = Some b ∧
    div a b = Raise ZeroDivisionError ∧
    ∀ j a' b', (j < i)%nat →
      [4; 0; 3; 0; 1] !! j = Some a' → [4; 0; 3; 0; 1] !! S j = Some b' →
      ∃ x, div a' b' = Return x.
Proof.
  apply (get_subseq_Raise_first [4; 0; 3; 0; 1] div ZeroDivisionError).
  reflexivity.
Defined.

(** *** The schedule entries that are read *)

Lemma subseqs_loop_snoc rest pre row :
  subseqs_loop rest (pre ++ [row]) =
  if negb (is_constant row) && bool_decide (1 < length row)%nat then
    match rest with
    | [] => Raise IndexError
    | f :: rest' =>
        next ← get_subseq row f;
        subseqs_loop rest' ((pre ++ [row]) ++ [next])
    end
  else Return (pre ++ [row]).
Proof. destruct rest; simpl; by rewrite index_last_snoc. Qed.

Lemma built_not_nil rest row rows : built rest row rows → rows ≠ [].
Proof. by destruct 1. Qed.

Lemma built_grown rest row rows : built rest row rows → grown row rows.
Proof.
  induction 1 as [rest row Hs|f rest row next rows Hc Hl Hnext _ IH].
  - by apply grown_stop.
  - apply (grown_step row next); [done|done| |done].
    apply get_subseq_length in Hnext. lia.
Qed.

Lemma subseqs_loop_built rest pre row tbl :
  subseqs_loop rest (pre ++ [row]) = Return tbl ↔
  ∃ rows, tbl = pre ++ rows ∧ built rest row rows.
Proof.
  split.
  - revert pre row. induction rest as [|f rest IH]; intros pre row;
      rewrite subseqs_loop_snoc;
      destruct (negb _ && _) eqn:E; try done.
    + intros [= <-]. exists [row]. split; [done|].
      by apply built_stop, loop_test_false.
    + apply loop_test_true in E as [Hc Hl].
      rewrite bind_Return. intros (next & Hnext & H).
      apply IH in H as (rows & -> & Hb).
      exists (row :: rows). split; [by rewrite <- app_assoc|].
      by apply (built_step f rest row next).
    + intros [= <-]. exists [row]. split; [done|].
      by apply built_stop, loop_test_false.
  - intros (rows & -> & Hb). revert pre.
    induction Hb as [rest row Hs|f rest row next rows Hc Hl Hnext _ IH];
      intros pre; rewrite subseqs_loop_snoc.
    + apply loop_test_false in Hs. by rewrite Hs.
    + rewrite (proj2 (loop_test_true row)) by done.
      rewrite Hnext. cbn [mbind result_bind].
      rewrite IH. by rewrite <- app_assoc.
Qed.

Lemma get_subseqs_built s ops tbl :
  (2 ≤ length s)%nat →
  get_subseqs s ops = Return tbl ↔
  ∃ f rest row0,
    as_list (length s - 1) ops = f :: rest ∧
    get_subseq s f = Return row0 ∧
    built rest row0 tbl.
Proof.
  intros Hs. unfold get_subseqs. rewrite bool_decide_eq_false_2 by lia.
  cbn zeta. destruct (as_list _ ops) as [|f rest]; cbn.
  - split; [done|]. by intros (? & ? & ? & ? & _).
  - rewrite drop_0. split.
    + destruct (get_subseq s f) as [row0|e] eqn:Hrow0; [|done]. cbn.
      intros (rows & -> & Hb)%(subseqs_loop_built rest []).
      by exists f, rest, row0.
    + intros (f' & rest' & row0 & [= <- <-] & -> & Hb). cbn.
      apply (subseqs_loop_built rest []). by exists tbl.
Qed.

Lemma built_take rest rest' row rows :
  built rest row rows →
  take (length rows - 1) rest' = take (length rows - 1) rest →
  built rest' row rows.
Proof.
  intros Hb. revert rest'.
  induction Hb as [rest row Hs|f rest row next rows Hc Hl Hnext Hb IH];
    intros rest' Htake.
  - by apply built_stop.
  - pose proof (built_not_nil _ _ _ Hb) as Hne.
    destruct rows as [|row1 rows]; [done|]. cbn in Htake.
    destruct rest' as [|f' rest']; [done|]. cbn in Htake.
    injection Htake as -> Htake.
    apply (built_step f rest' row next); [done|done|done|].
    apply IH. cbn. by rewrite Nat.sub_0_r.
Qed.

Lemma built_short rest row rows k pre :
  built rest row rows →
  (k < length rows - 1)%nat →
  subseqs_loop (take k rest) (pre ++ [row]) = Raise IndexError.
Proof.
  intros Hb. revert k pre.
  induction Hb as [rest row Hs|f rest row next rows Hc Hl Hnext Hb IH];
    intros k pre Hk; cbn in Hk; [lia|].
  rewrite subseqs_loop_snoc, (proj2 (loop_test_true row)) by done.
  destruct k as [|k]; [done|]. cbn [take].
  rewrite Hnext. cbn [mbind result_bind]. apply IH. lia.
Qed.

Lemma get_subseqs_same_prefix s fs fs' tbl :
  get_subseqs s (Many fs) = Return tbl →
  take (length tbl) fs' = take (length tbl) fs →
  get_subseqs s (Many fs') = Return tbl.
Proof.
  intros Htbl Htake. destruct (decide (length s < 2)%nat) as [Hs|Hs].
  { rewrite get_subseqs_lt_2 in Htbl by done. apply Return_inj in Htbl as <-.
    by apply get_subseqs_lt_2. }
  apply get_subseqs_built in Htbl as (f & rest & row0 & Hfs & Hrow0 & Hb);
    [|lia].
  cbn in Hfs. subst fs.
  pose proof (built_not_nil _ _ _ Hb) as Hne.
  destruct tbl as [|row0' tbl]; [done|].
  destruct fs' as [|f' rest']; [done|]. cbn in Htake.
  injection Htake as -> Htake.
  apply get_subseqs_built; [lia|]. exists f, rest', row0.
  split_and!; [done|done|]. apply (built_take rest); [done|].
  cbn. by rewrite Nat.sub_0_r.
Qed.

(** [get_subseqs] reads exactly the first [len(table)] entries of a
    schedule given as a list: any list with the same first [len(table)]
    entries gives the same table (longer and shorter lists included), and
    a list cut below [len(table)] entries raises [IndexError]. *)
Theorem get_subseqs_reads_prefix (s : list Z) (fs : list op)
    (tbl : list (list Z)) :
  get_subseqs s (Many fs) = Return tbl →
  (∀ fs', take (length tbl) fs' = take (length tbl) fs →
     get_subseqs s (Many fs') = Return tbl) ∧
  (∀ k, (k < length tbl)%nat →
     get_subseqs s (Many (take k fs)) = Raise IndexError).
Proof.
  intros Htbl. split.
  { intros fs'. by apply get_subseqs_same_prefix. }
  destruct (decide (length s < 2)%nat) as [Hs|Hs].
  { rewrite get_subseqs_lt_2 in Htbl by done. apply Return_inj in Htbl as <-.
    cbn. lia. }
  apply get_subseqs_built in Htbl as (f & rest & row0 & Hfs & Hrow0 & Hb);
    [|lia].
  cbn in Hfs. subst fs.
  pose proof (built_not_nil _ _ _ Hb) as Hne.
  destruct tbl as [|row0' tbl]; [done|].
  - intros k Hk. unfold get_subseqs. rewrite bool_decide_eq_false_2 by lia.
    cbn zeta. cbn [as_list]. destruct k as [|k]; [done|]. cbn.
    rewrite Hrow0. cbn. rewrite drop_0.
    apply (built_short rest row0 (row0' :: tbl) k []); [done|].
    cbn in *. lia.
Qed.

Lemma get_subseqs_reads_prefix_witness :
  (∀ fs', take (length [[2; 3; 4]; [1; 1]]) fs' =
          take (length [[2; 3; 4]; [1; 1]]) [div; sub; flip] →
     get_subseqs [1; 2; 6; 24] (Many fs') = Return [[2; 3; 4]; [1; 1]]) ∧
  (∀ k, (k < length [[2; 3; 4]; [1; 1]])%nat →
     get_subseqs [1; 2; 6; 24] (Many (take k [div; sub; flip])) =
     Raise IndexError).
Proof.
  apply (get_subseqs_reads_prefix [1; 2; 6; 24] [div; sub; flip]).
  reflexivity.
Defined.

Lemma for_each_ext {A B} (body body' : B → A → result B) xs acc :
  (∀ acc' x, x ∈ xs → body acc' x = body' acc' x) →
  for_each body xs acc = for_each body' xs acc.
Proof.
  revert acc. induction xs as [|x xs IH]; intros acc Hext; [done|].
  cbn [for_each]. rewrite (Hext acc x) by left.
  destruct (body' acc x) as [acc'|e]; [|done]. cbn.
  apply IH. intros acc'' y Hy. apply Hext. by right.
Qed.

Lemma index_take_eq {A} (l l' : list A) n i :
  take n l' = take n l → (i < n)%nat → index l' i = index l i.
Proof.
  intros Htake Hi. unfold index.
  by rewrite <- (lookup_take_lt l' n i), <- (lookup_take_lt l n i), Htake.
Qed.

(** [next_item] reads exactly the first [len(table)] entries of both
    schedules: lists that agree with [ops] and [invops] on those entries
    give the same outcome, whatever their lengths. *)
Theorem next_item_reads_prefix (s : list Z) (fs gs fs' gs' : list op)
    (tbl : list (list Z)) :
  get_subseqs s (Many fs) = Return tbl →
  take (length tbl) fs' = take (length tbl) fs →
  take (length tbl) gs' = take (length tbl) gs →
  next_item s (Many fs') (Many gs') = next_item s (Many fs) (Many gs).
Proof.
  intros Htbl Hfs Hgs. unfold next_item.
  rewrite (get_subseqs_same_prefix s fs fs' tbl Htbl Hfs), Htbl.
  cbn [mbind result_bind as_list].
  destruct (index_last tbl) as [final|e] eqn:Hfinal; [|done].
  cbn [mbind result_bind].
  destruct (index_last final) as [r|e]; [|done]. cbn [mbind result_bind].
  assert (0 < length tbl)%nat as Hlen.
  { apply index_last_Return in Hfinal as [tbl' ->].
    rewrite length_app. simpl. lia. }
  rewrite (for_each_ext (next_item_step tbl gs') (next_item_step tbl gs)).
  - destruct (for_each _ _ r) as [r'|e]; [|done]. cbn [mbind result_bind].
    by rewrite (index_take_eq gs gs' (length tbl) 0).
  - intros acc i [Hi1 Hi2]%elem_of_reverse%elem_of_seq. unfold next_item_step.
    rewrite (index_take_eq gs gs' (length tbl) i); [done|done|lia].
Qed.

Lemma next_item_reads_prefix_witness :
  next_item [1; 2; 6; 24] (Many [div; sub]) (Many [mul; add]) =
  next_item [1; 2; 6; 24] (Many [div; sub; flip]) (Many [mul; add; flip]).
Proof.
  apply (next_item_reads_prefix [1; 2; 6; 24] [div; sub; flip]
           [mul; add; flip] [div; sub] [mul; add] [[2; 3; 4]; [1; 1]]);
    reflexivity.
Defined.

(** *** Sequences whose first row is already constant *)

Lemma next_item_one_row s ops invops f g row0 :
  (2 ≤ length s)%nat →
  as_list (length s - 1) ops !! 0%nat = Some f →
  as_list (length s - 1) invops !! 0%nat = Some g →
  get_subseq s f = Return row0 →
  stops row0 →
  ∃ x r, last s = Some x ∧ last row0 = Some r ∧
         next_item s ops invops = g x r.
Proof.
  intros Hs Hf Hg Hrow0 Hstop.
  assert (get_subseqs s ops = Return [row0]) as Htbl.
  { apply get_subseqs_built; [done|].
    destruct (as_list _ ops) as [|f' rest]; [done|]. injection Hf as ->.
    exists f, rest, row0. split_and!; [done|done|by apply built_stop]. }
  pose proof (get_subseq_length _ _ _ Hrow0) as Hlen.
  destruct (last s) as [x|] eqn:Hx; [|apply last_None in Hx; subst s; simpl in Hs; lia].
  destruct (last row0) as [r|] eqn:Hr;
    [|apply last_None in Hr; subst row0; simpl in Hlen; lia].
  exists x, r. split_and!; [done|done|].
  unfold next_item. rewrite Htbl. cbn [mbind result_bind].
  change (index_last [row0]) with (Return row0). cbn [mbind result_bind].
  unfold index_last, index. rewrite Hr, Hx. cbn.
  destruct (as_list _ invops) as [|g' gs]; [done|]. by injection Hg as ->.
Qed.

(** When the first derived row already ends the table (it is constant or
    has one element), the prediction is [invops[0](s[-1], row0[-1])]. *)
Theorem next_item_first_row_stops (s : list Z) (ops invops : schedule)
    (f g : op) (row0 : list Z) :
  (2 ≤ length s)%nat →
  as_list (length s - 1) ops !! 0%nat = Some f →
  as_list (length s - 1) invops !! 0%nat = Some g →
  get_subseq s f = Return row0 →
  is_constant row0 = true ∨ (length row0 ≤ 1)%nat →
  ∃ x r, last s = Some x ∧ last row0 = Some r ∧
         next_item s ops invops = g x r.
Proof. apply next_item_one_row. Qed.

Lemma next_item_first_row_stops_witness :
  ∃ x r, last [1; 2; 4; 8] = Some x ∧ last [2; 2; 2] = Some r ∧
         next_item [1; 2; 4; 8] (Single div) (Single mul) = mul x r.
Proof.
  apply (next_item_first_row_stops [1; 2; 4; 8] (Single div) (Single mul)
           div mul [2; 2; 2]).
  - simpl; lia.
  - reflexivity.
  - reflexivity.
  - reflexivity.
  - left. reflexivity.
Defined.

Lemma is_constant_replicate n d : is_constant (replicate n d) = true.
Proof.
  apply is_constant_spec. intros x y Hx%elem_of_replicate_inv
    Hy%elem_of_replicate_inv. by subst.
Qed.

Lemma last_replicate_S {A} n (d : A) : last (replicate (S n) d) = Some d.
Proof.
  rewrite last_lookup, length_replicate. apply lookup_replicate_2. simpl. lia.
Qed.

(** An arithmetic progression is continued: if every element is the one
    before it plus [d], the difference table predicts the last element
    plus [d]. *)
Theorem next_item_arithmetic (s : list Z) (d : Z) :
  (2 ≤ length s)%nat →
  (∀ i a b, s !! i = Some a → s !! S i = Some b → b = a + d) →
  ∃ x, last s = Some x ∧
       next_item s (Single sub) (Single add) = Return (x + d).
Proof.
  intros Hs Hstep.
  destruct (next_item_one_row s (Single sub) (Single add) sub add
              (replicate (length s - 1) d)) as (x & r & Hx & Hr & Hnext).
  - done.
  - apply lookup_replicate_2. lia.
  - apply lookup_replicate_2. lia.
  - apply get_subseq_Return_spec. split; [by rewrite length_replicate|].
    intros i a b Ha Hb. exists d. split.
    + apply lookup_replicate_2. apply lookup_lt_Some in Hb. lia.
    + unfold sub. f_equal. rewrite (Hstep i a b Ha Hb). lia.
  - left. apply is_constant_replicate.
  - exists x. split; [done|]. rewrite Hnext.
    destruct (length s - 1)%nat as [|n] eqn:Hn; [lia|].
    rewrite last_replicate_S in Hr. injection Hr as <-.
    unfold add. f_equal. lia.
Qed.

Lemma next_item_arithmetic_witness :
  ∃ x, last [5; 2; -1; -4] = Some x ∧
       next_item [5; 2; -1; -4] (Single sub) (Single add) = Return (x + -3).
Proof.
  apply (next_item_arithmetic [5; 2; -1; -4] (-3)).
  - simpl; lia.
  - intros [|[|[|[|i]]]] a b Ha Hb; simpl in *; try done;
      injection Ha as <-; injection Hb as <-; reflexivity.
Defined.

(** A geometric progression of non-zero elements is continued: if every
    element is [q] times the one before it, the division table predicts
    [q] times the last element. *)
Theorem next_item_geometric (s : list Z) (q : Z) :
  (2 ≤ length s)%nat →
  (∀ i a b, s !! i = Some a → s !! S i = Some b → a ≠ 0 ∧ b = q * a) →
  ∃ x, last s = Some x ∧
       next_item s (Single div) (Single mul) = Return (q * x).
Proof.
  intros Hs Hstep.
  destruct (next_item_one_row s (Single div) (Single mul) div mul
              (replicate (length s - 1) q)) as (x & r & Hx & Hr & Hnext).
  - done.
  - apply lookup_replicate_2. lia.
  - apply lookup_replicate_2. lia.
  - apply get_subseq_Return_spec. split; [by rewrite length_replicate|].
    intros i a b Ha Hb. exists q. split.
    + apply lookup_replicate_2. apply lookup_lt_Some in Hb. lia.
    + destruct (Hstep i a b Ha Hb) as [Hne ->]. unfold div.
      destruct (Z.eqb_spec a 0) as [?|_]; [done|].
      f_equal. by apply Z.div_mul.
  - left. apply is_constant_replicate.
  - exists x. split; [done|]. rewrite Hnext.
    destruct (length s - 1)%nat as [|n] eqn:Hn; [lia|].
    rewrite last_replicate_S in Hr. by injection Hr as <-.
Qed.

Lemma next_item_geometric_witness :
  ∃ x, last [3; -6; 12] = Some x ∧
       next_item [3; -6; 12] (Single div) (Single mul) = Return (-2 * x).
Proof.
  apply (next_item_geometric [3; -6; 12] (-2)).
  - simpl; lia.
  - intros [|[|[|i]]] a b Ha Hb; simpl in *; try done;
      injection Ha as <-; injection Hb as <-; split; (lia || reflexivity).
Defined.

(** *** The prediction extends the table *)

Lemma for_each_app {A B} (body : B → A → result B) xs ys acc :
  for_each body (xs ++ ys) acc =
  acc' ← for_each body xs acc; for_each body ys acc'.
Proof.
  revert acc. induction xs as [|x xs IH]; intros acc; [done|].
  cbn [app for_each]. destruct (body acc x) as [acc'|e]; [|done]. cbn.
  apply IH.
Qed.

Lemma walked_not_nil gs acc : ¬ walked gs [] acc.
Proof. inversion 1. Qed.

(** The loop of [next_item] over the levels [j + m], ..., [j + 1]. *)
Lemma next_item_loop_walked ss gs final r m :
  last ss = Some final →
  last final = Some r →
  ∀ j racc,
    (j + m = length ss - 1)%nat →
    for_each (next_item_step ss gs) (reverse (seq (S j) m)) r = Return racc →
    walked (drop (S j) gs) (drop j ss) racc.
Proof.
  intros Hfinal Hr. induction m as [|m IH]; intros j racc Hj.
  - cbn. intros [= <-].
    apply last_Some in Hfinal as [ss' ->].
    rewrite length_app in Hj. cbn in Hj.
    replace j with (length ss' + 0)%nat by lia.
    rewrite drop_app_length'; [|lia]. by apply walked_last.
  - cbn [seq]. rewrite reverse_cons, for_each_app, bind_Return.
    intros (r1 & Hr1 & Hstep). apply IH in Hr1; [|lia].
    cbn [for_each] in Hstep. apply bind_Return in Hstep as (r2 & Hstep & [= ->]).
    unfold next_item_step in Hstep.
    apply bind_Return in Hstep as (g & Hg & Hstep).
    apply bind_Return in Hstep as (above & Habove & Hstep).
    apply bind_Return in Hstep as (x & Hx & Hstep).
    unfold index in Hg, Habove.
    destruct (gs !! S j) as [g'|] eqn:Hg'; [|done]. injection Hg as ->.
    replace (S j - 1)%nat with j in Habove by lia.
    destruct (ss !! j) as [above'|] eqn:Habove'; [|done].
    injection Habove as ->.
    rewrite (drop_S _ _ _ Hg'), (drop_S _ _ _ Habove').
    apply (walked_step g _ above _ x r1); [done| |done].
    unfold index_last in Hx. by destruct (last above) as [x'|]; [injection Hx as ->|].
Qed.

Lemma get_subseq_snoc row f next x a d :
  last row = Some x →
  get_subseq row f = Return next →
  f x a = Return d →
  get_subseq (row ++ [a]) f = Return (next ++ [d]).
Proof.
  revert next. induction row as [|y row IH]; intros next Hx Hnext Hd; [done|].
  destruct row as [|z row].
  - cbn in Hx, Hnext. injection Hx as ->. injection Hnext as <-.
    cbn. by rewrite Hd.
  - rewrite last_cons_cons in Hx.
    rewrite get_subseq_cons2 in Hnext.
    apply bind_Return in Hnext as (w & Hw & Hnext).
    apply bind_Return in Hnext as (next' & Hnext' & [= <-]).
    change ((y :: z :: row) ++ [a]) with (y :: z :: (row ++ [a])).
    rewrite get_subseq_cons2, Hw. cbn [mbind result_bind].
    change (z :: row ++ [a]) with ((z :: row) ++ [a]).
    by rewrite (IH next' Hx Hnext' Hd).
Qed.

Lemma is_constant_snoc_false row a :
  is_constant row = false → is_constant (row ++ [a]) = false.
Proof.
  intros Hrow. destruct (is_constant (row ++ [a])) eqn:E; [|done].
  rewrite <- Hrow. symmetry. apply is_constant_spec.
  intros x y Hx Hy.
  apply (proj1 (is_constant_spec (row ++ [a])) E); apply elem_of_app; by left.
Qed.

Lemma is_constant_snoc_last row r :
  stops row → last row = Some r → is_constant (row ++ [r]) = true.
Proof.
  intros Hstop Hr. apply last_Some in Hr as [row' ->].
  apply is_constant_spec.
  assert (∀ x, x ∈ (row' ++ [r]) ++ [r] → x = r) as Heq.
  { intros x [Hx| ->%list_elem_of_singleton]%elem_of_app; [|done].
    destruct Hstop as [Hc|Hlen].
    - apply (proj1 (is_constant_spec _) Hc); [done|].
      apply elem_of_app. right. by apply list_elem_of_singleton.
    - rewrite length_app in Hlen. cbn in Hlen.
      destruct row'; [|cbn in Hlen; lia].
      by apply list_elem_of_singleton in Hx. }
  intros x y Hx%Heq Hy%Heq. by subst.
Qed.

Lemma built_prefix rest rest' row rows :
  built rest row rows → rest `prefix_of` rest' → built rest' row rows.
Proof.
  intros Hb. revert rest'.
  induction Hb as [rest row Hs|f rest row next rows Hc Hl Hnext Hb IH];
    intros rest' [tl ->].
  - by apply built_stop.
  - apply (built_step f _ row next); [done|done|done|].
    apply IH. by exists tl.
Qed.

(** One level at a time: appending the value the walk arrives at to a row
    appends to the row below the value the walk had there. *)
Lemma built_walked_extend fs gs row rows acc :
  built fs row rows →
  walked gs rows acc →
  (∀ i f g, fs !! i = Some f → gs !! i = Some g → inverts g f) →
  ∃ rows',
    built fs (row ++ [acc]) rows' ∧
    Forall2 (λ r r', ∃ x, r' = r ++ [x]) rows rows' ∧
    ∃ final r, last rows = Some final ∧ last final = Some r ∧
               last rows' = Some (final ++ [r]).
Proof.
  intros Hb. revert gs acc.
  induction Hb as [rest row Hs|f rest row next rows Hc Hl Hnext Hb IH];
    intros gs acc Hw Hinv.
  - inversion Hw as [gs' row' r Hr|g gs' row' rows' x r acc' Hw' _ _]; subst;
      [|by apply walked_not_nil in Hw'].
    exists [row ++ [acc]]. split_and!.
    + apply built_stop. left. by apply is_constant_snoc_last.
    + repeat constructor. by exists acc.
    + by exists row, acc.
  - inversion Hw as [gs' row' r Hr|g gs' row' rows' x r acc' Hw' Hx Hg]; subst.
    { by apply built_not_nil in Hb. }
    assert (f x acc = Return r) as Hf.
    { by apply (Hinv 0%nat f g eq_refl eq_refl x r acc). }
    destruct (IH gs' r Hw') as (rows' & Hb' & Hall & final & r' & Hlast).
    { intros i f' g' Hf' Hg'. by apply (Hinv (S i) f' g'). }
    exists ((row ++ [acc]) :: rows'). split_and!.
    + apply (built_step f rest _ (next ++ [r])); [| | |done].
      * by apply is_constant_snoc_false.
      * rewrite length_app. lia.
      * by apply (get_subseq_snoc row f next x).
    + constructor; [by exists acc|done].
    + exists final, r'. destruct Hlast as (Hl1 & Hl2 & Hl3).
      pose proof (built_not_nil _ _ _ Hb) as Hne.
      pose proof (built_not_nil _ _ _ Hb') as Hne'.
      destruct rows as [|? ?]; [done|]. destruct rows' as [|? ?]; [done|].
      by rewrite !last_cons_cons.
Qed.

Lemma next_item_extends s ops invops ss v :
  (∀ n i f g, as_list n ops !! i = Some f →
     as_list n invops !! i = Some g → inverts g f) →
  get_subseqs s ops = Return ss →
  next_item s ops invops = Return v →
  ∃ ss',
    get_subseqs (s ++ [v]) ops = Return ss' ∧
    Forall2 (λ row row', ∃ x, row' = row ++ [x]) ss ss' ∧
    ∃ final r, last ss = Some final ∧ last final = Some r ∧
               last ss' = Some (final ++ [r]).
Proof.
  intros Hinv Hss Hv.
  destruct (decide (length s < 2)%nat) as [Hs|Hs].
  { unfold next_item in Hv. by rewrite get_subseqs_lt_2 in Hv. }
  unfold next_item in Hv. rewrite Hss in Hv. cbn [mbind result_bind] in Hv.
  apply bind_Return in Hv as (final & Hfinal & Hv).
  apply bind_Return in Hv as (r & Hr & Hv). cbn zeta in Hv.
  apply bind_Return in Hv as (r0 & Hloop & Hv).
  apply bind_Return in Hv as (g0 & Hg0 & Hv).
  apply bind_Return in Hv as (x & Hx & Hv).
  unfold index_last in Hfinal, Hr, Hx.
  destruct (last ss) as [final'|] eqn:Hfinal'; [|done]. injection Hfinal as ->.
  destruct (last final) as [r'|] eqn:Hr'; [|done]. injection Hr as ->.
  destruct (last s) as [x'|] eqn:Hx'; [|done]. injection Hx as ->.
  apply (next_item_loop_walked ss _ final r _ Hfinal' Hr' 0%nat) in Hloop;
    [|lia].
  rewrite drop_0 in Hloop.
  apply get_subseqs_built in Hss as (f0 & rest & row0 & Hfs & Hrow0 & Hb);
    [|lia].
  unfold index in Hg0.
  destruct (as_list (length s - 1) invops) as [|g0' gs] eqn:Hgs; [done|].
  injection Hg0 as ->. cbn [drop] in Hloop. rewrite drop_0 in Hloop.
  assert (inverts g0 f0) as Hinv0.
  { apply (Hinv (length s - 1)%nat 0%nat); [by rewrite Hfs|by rewrite Hgs]. }
  destruct (built_walked_extend rest gs row0 ss r0 Hb Hloop)
    as (ss' & Hb' & Hall & Hlast).
  { intros i f g Hf Hg.
    apply (Hinv (length s - 1)%nat (S i)); [by rewrite Hfs|by rewrite Hgs]. }
  exists ss'. split_and!; [|done|]; last first.
  { destruct Hlast as (final0 & r1 & H1 & H2 & H3).
    exists final0, r1. split_and!; [congruence|done|done]. }
  apply get_subseqs_built; [rewrite length_app; cbn; lia|].
  assert (∃ rest', as_list (length (s ++ [v]) - 1) ops = f0 :: rest' ∧
                   rest `prefix_of` rest') as (rest' & -> & Hpre).
  { rewrite length_app. cbn [length].
    replace (length s + 1 - 1)%nat with (S (length s - 1)) by lia.
    destruct ops as [f|fs]; cbn [as_list] in *.
    - destruct (length s - 1)%nat as [|n]; [done|].
      cbn in Hfs. injection Hfs as -> <-.
      exists (replicate (S n) f0). split; [done|].
      exists [f0]. by rewrite <- replicate_S_end.
    - exists rest. by subst fs. }
  exists f0, rest', (row0 ++ [r0]). split_and!; [done| |].
  - apply (get_subseq_snoc s f0 row0 x); [done|done|]. by apply Hinv0.
  - by apply (built_prefix rest).
Qed.

(** When every inverse operation undoes the operation at its level,
    appending the prediction to the sequence and building the table again
    gives the old table with one element appended to each row, and the new
    last row is the old last row with its last element repeated: the
    docstring's "will assume that the latest sequence should remain
    constant". *)
Theorem next_item_extends_table (s : list Z) (ops invops : schedule)
    (ss : list (list Z)) (v : Z) :
  (∀ n i f g, as_list n ops !! i = Some f →
     as_list n invops !! i = Some g → inverts g f) →
  get_subseqs s ops = Return ss →
  next_item s ops invops = Return v →
  ∃ ss',
    get_subseqs (s ++ [v]) ops = Return ss' ∧
    Forall2 (λ row row', ∃ x, row' = row ++ [x]) ss ss' ∧
    ∃ final r, last ss = Some final ∧ last final = Some r ∧
               last ss' = Some (final ++ [r]).
Proof. apply next_item_extends. Qed.

Lemma add_inverts_sub : inverts add sub.
Proof. intros a d b [= <-]. unfold sub. f_equal. lia. Qed.

Lemma sub_add_levels n i f g :
  as_list n (Single sub) !! i = Some f →
  as_list n (Single add) !! i = Some g →
  inverts g f.
Proof.
  cbn. intros [-> _]%lookup_replicate [-> _]%lookup_replicate.
  apply add_inverts_sub.
Qed.

Lemma next_item_extends_table_witness :
  ∃ ss',
    get_subseqs ([1; 2; 4; 7] ++ [11]) (Single sub) = Return ss' ∧
    Forall2 (λ row row', ∃ x, row' = row ++ [x])
      [[1; 2; 3]; [1; 1]] ss' ∧
    ∃ final r, last [[1; 2; 3]; [1; 1]] = Some final ∧
               last final = Some r ∧
               last ss' = Some (final ++ [r]).
Proof.
  apply (next_item_extends_table [1; 2; 4; 7] (Single sub) (Single add)
           [[1; 2; 3]; [1; 1]] 11).
  - apply sub_add_levels.
  - reflexivity.
  - reflexivity.
Defined.

(** For adequate schedules, whatever [next_item] raises is raised by one
    of the operations of the two schedules: the table, the seed and the
    walk back up read no index out of range. *)
Theorem next_item_raises_from_operation (s : list Z)
    (ops invops : schedule) (e : exn) :
  (2 ≤ length s)%nat →
  adequate s ops →
  adequate s invops →
  next_item s ops invops = Raise e →
  ∃ f a b,
    (f ∈ as_list (length s - 1) ops ∨ f ∈ as_list (length s - 1) invops) ∧
    f a b = Raise e.
Proof.
  intros Hs Hops Hinvs.
  assert (∀ sched, sched = ops ∨ sched = invops →
    schedule_raises_only
      (λ e, ∃ f a b,
         (f ∈ as_list (length s - 1) ops ∨
          f ∈ as_list (length s - 1) invops) ∧ f a b = Raise e) sched) as H.
  { intros sched Hsched.
    assert (∀ f, f ∈ as_list (length s - 1) sched →
              f ∈ as_list (length s - 1) ops ∨
              f ∈ as_list (length s - 1) invops) as Hin
      by (intros f Hf; destruct Hsched as [->| ->]; [by left|by right]).
    destruct sched as [f|fs]; cbn in *.
    - intros a b e' He'. exists f, a, b. split; [|done].
      apply Hin. destruct (length s - 1)%nat as [|n] eqn:Hn; [lia|]. by left.
    - apply Forall_forall. intros f Hf a b e' He'.
      exists f, a, b. split; [by apply Hin|done]. }
  apply (next_item_Raise
           (λ e, ∃ f a b,
              (f ∈ as_list (length s - 1) ops ∨
               f ∈ as_list (length s - 1) invops) ∧ f a b = Raise e));
    [done|done|done|apply H; by left|apply H; by right].
Qed.

Lemma next_item_raises_from_operation_witness :
  ∃ f a b,
    (f ∈ as_list (length [5; 0; 3] - 1) (Single div) ∨
     f ∈ as_list (length [5; 0; 3] - 1) (Single mul)) ∧
    f a b = Raise ZeroDivisionError.
Proof.
  apply (next_item_raises_from_operation [5; 0; 3] (Single div) (Single mul)).
  - simpl; lia.
  - exact I.
  - exact I.
  - reflexivity.
Defined.

(** The difference table always predicts: for a sequence of at least two
    elements [next_item] with subtraction and addition returns a value,
    and with that value appended the table is the old one with every row
    one element longer and the last element of the last row repeated. *)
Theorem difference_table_extends (s : list Z) :
  (2 ≤ length s)%nat →
  ∃ v ss ss',
    next_item s (Single sub) (Single add) = Return v ∧
    get_subseqs s (Single sub) = Return ss ∧
    get_subseqs (s ++ [v]) (Single sub) = Return ss' ∧
    Forall2 (λ row row', ∃ x, row' = row ++ [x]) ss ss' ∧
    ∃ final r, last ss = Some final ∧ last final = Some r ∧
               last ss' = Some (final ++ [r]).
Proof.
  intros Hs.
  destruct (next_item s (Single sub) (Single add)) as [v|e] eqn:Hv.
  2:{ by destruct (next_item_Raise (λ _, False) s (Single sub) (Single add) e). }
  destruct (get_subseqs s (Single sub)) as [ss|e] eqn:Hss.
  2:{ by destruct (get_subseqs_Raise (λ _, False) s (Single sub) e). }
  destruct (next_item_extends s (Single sub) (Single add) ss v)
    as (ss' & Hss' & Hall & Hlast); [apply sub_add_levels|done|done|].
  by exists v, ss, ss'.
Qed.

Lemma difference_table_extends_witness :
  ∃ v ss ss',
    next_item [6; 9; 2; 5] (Single sub) (Single add) = Return v ∧
    get_subseqs [6; 9; 2; 5] (Single sub) = Return ss ∧
    get_subseqs ([6; 9; 2; 5] ++ [v]) (Single sub) = Return ss' ∧
    Forall2 (λ row row', ∃ x, row' = row ++ [x]) ss ss' ∧
    ∃ final r, last ss = Some final ∧ last final = Some r ∧
               last ss' = Some (final ++ [r]).
Proof. apply (difference_table_extends [6; 9; 2; 5]). simpl; lia. Defined.

(** *** The solver at its edges *)

(** [solve_seq] does not return on a sequence with fewer than two
    elements: on the empty sequence [itertools.product] is called with
    [repeat=-1] and raises [ValueError]; on a singleton the one empty
    schedule makes [next_item] raise [IndexError], which the [except]
    clause does not catch. *)
Theorem solve_seq_short (s : list Z) :
  (length s < 2)%nat →
  solve_seq s = Raise (match s with [] => ValueError | _ => IndexError end).
Proof.
  intros Hs. destruct s as [|x [|y s]]; [done|done|]. simpl in Hs. lia.
Qed.

Lemma solve_seq_short_witness :
  solve_seq [7] = Raise (match [7] with [] => ValueError | _ => IndexError end).
Proof. apply (solve_seq_short [7]). simpl; lia. Defined.

Lemma next_item_Single s f g :
  next_item s (Single f) (Single g) =
  next_item s (Many (replicate (length s - 1) f))
              (Many (replicate (length s - 1) g)).
Proof. done. Qed.

(** For every sequence of at least two elements the set [solve_seq]
    returns is not empty: the schedule that subtracts at every level never
    fails, and its prediction, the one of the plain difference table, is
    in the set. *)
Theorem solve_seq_has_difference_prediction (s : list Z) :
  (2 ≤ length s)%nat →
  ∃ v sols,
    next_item s (Single sub) (Single add) = Return v ∧
    solve_seq s = Return sols ∧
    v ∈ sols.
Proof.
  intros Hs.
  destruct (next_item s (Single sub) (Single add)) as [v|e] eqn:Hv.
  2:{ by destruct (next_item_Raise (λ _, False) s (Single sub) (Single add) e). }
  eexists v, _. split_and!; [done|by apply solve_seq_product|].
  rewrite elem_of_list_to_set, elem_of_returned, list_elem_of_fmap.
  exists (replicate (length s - 1) Subtract). split.
  - unfold predict. rewrite !fmap_replicate. cbn [operation inverse].
    by rewrite <- next_item_Single.
  - apply elem_of_product_iter. split; [by rewrite length_replicate|].
    apply Forall_replicate, elem_of_kind_palette.
Qed.

Lemma solve_seq_has_difference_prediction_witness :
  ∃ v sols,
    next_item [0; 0; 5] (Single sub) (Single add) = Return v ∧
    solve_seq [0; 0; 5] = Return sols ∧
    v ∈ sols.
Proof.
  apply (solve_seq_has_difference_prediction [0; 0; 5]). simpl; lia.
Defined.

Lemma length_product_step {A} (pool : list A) res :
  length (product_step pool res) = (length res * length pool)%nat.
Proof.
  unfold product_step. induction res as [|x res IH]; [done|].
  csimpl. rewrite length_app, IH. f_equal.
  clear IH. induction pool as [|y pool IH]; [done|]. csimpl. by rewrite IH.
Qed.

Lemma length_product_iter {A} (pool : list A) n :
  length (Nat.iter n (product_step pool) [[]]) = (length pool ^ n)%nat.
Proof.
  induction n as [|n IH]; [done|].
  rewrite Nat.iter_succ, length_product_step, IH, Nat.pow_succ_r'. lia.
Qed.

Lemma length_returned {A} (rs : list (result A)) :
  (length (returned rs) ≤ length rs)%nat.
Proof.
  unfold returned. induction rs as [|[v|e] rs IH]; csimpl; lia.
Qed.

Lemma size_list_to_set_le (l : list Z) :
  (size (list_to_set l : gset Z) ≤ length l)%nat.
Proof.
  induction l as [|x l IH]; [by rewrite list_to_set_nil, size_empty|].
  rewrite list_to_set_cons, size_union_alt, size_singleton. cbn [length].
  assert (size (list_to_set l ∖ {[x]} : gset Z) ≤ size (list_to_set l : gset Z))%nat.
  { apply subseteq_size, subseteq_difference_l. done. }
  lia.
Qed.

(** [solve_seq] returns at most [3 ** (len(s) - 1)] candidates, one per
    schedule. *)
Theorem solve_seq_size (s : list Z) (sols : gset Z) :
  solve_seq s = Return sols →
  (size sols ≤ 3 ^ (length s - 1))%nat.
Proof.
  intros Hsols. destruct (decide (length s < 2)%nat) as [Hs|Hs].
  { destruct s as [|x [|y s]]; [done|done|]. simpl in Hs. lia. }
  rewrite solve_seq_product in Hsols by lia. apply Return_inj in Hsols as <-.
  etrans; [apply size_list_to_set_le|].
  etrans; [apply length_returned|].
  by rewrite length_fmap, length_product_iter.
Qed.

Lemma solve_seq_size_witness :
  (size ({[ -96; -24; 6; 28; 67; 96; 98; 120 ]}%Z : gset Z)
   ≤ 3 ^ (length [1; 2; 6; 24]%Z - 1))%nat.
Proof.
  apply (solve_seq_size [1; 2; 6; 24]). vm_compute. reflexivity.
Defined.

(** *** Display *)






Lemma max_of_Raise xs e : max_of xs = Raise e ↔ e = ValueError ∧ xs = [].
Proof.
  destruct xs as [|x xs]; cbn; split.
  - by intros [= <-].
  - by intros [-> _].
  - done.
  - by intros [_ ?].
Qed.



Lemma printtree_Raise_spec s ss e :
  printtree s ss = Raise e ↔ e = ValueError ∧ (s = [] ∨ concat ss = []).
Proof.
  unfold printtree. rewrite bind_Raise, max_of_Raise. split.
  - intros [[-> Hs%fmap_nil_inv]|(m1 & Hm1 & H)]; [by split; [|left]|].
    apply bind_Raise in H as [H|(m2 & _ & H)]; [|done].
    apply max_of_Raise in H as [-> Hss%fmap_nil_inv]. by split; [|right].
  - intros [-> Hempty].
    destruct s as [|n s]; [by left|]. right.
    destruct Hempty as [?| ->]; [done|]. eexists. split; [done|]. done.
Qed.

(** [printtree] raises exactly when the sequence is empty or the table has
    no element at all (no row, or only empty rows), and then it raises
    [ValueError], from [max] of an empty list, before printing anything. *)
Theorem printtree_Raise_iff (s : list Z) (ss : list (list Z)) (e : exn) :
  printtree s ss = Raise e ↔ e = ValueError ∧ (s = [] ∨ concat ss = []).
Proof. apply printtree_Raise_spec. Qed.



(** [printtree] on a sequence and its own table, as the demonstration
    calls it: for a sequence of at least two elements it prints the
    sequence and one line per row and never raises; for a shorter
    sequence the table is empty and it raises [ValueError]. *)
Theorem printtree_of_table (s : list Z) (ops : schedule)
    (ss : list (list Z)) :
  get_subseqs s ops = Return ss →
  ((2 ≤ length s)%nat →
     ∃ lines, printtree s ss = Return lines ∧
              length lines = S (length ss)) ∧
  ((length s < 2)%nat → printtree s ss = Raise ValueError).
Proof.
  intros Hss. split.
  - intros Hs. apply get_subseqs_grown in Hss as (row0 & Hrow0 & Hg); [|done].
    destruct (printtree s ss) as [lines|e] eqn:Hp.
    + exists lines. split; [done|].
      unfold printtree in Hp. apply bind_Return in Hp as (m1 & _ & Hp).
      apply bind_Return in Hp as (m2 & _ & [= <-]).
      cbn. by rewrite length_imap.
    + apply printtree_Raise_spec in Hp as [_ [->|Hempty]]; [simpl in Hs; lia|].
      pose proof (grown_head _ _ Hg) as Hhead.
      destruct ss as [|row ss]; [done|]. injection Hhead as ->.
      destruct row0 as [|n row0]; [simpl in Hrow0; lia|done].
  - intros Hs. rewrite get_subseqs_lt_2 in Hss by done.
    apply Return_inj in Hss as <-.
    apply printtree_Raise_spec. split; [done|by right].
Qed.

Lemma printtree_of_table_witness :
  ((2 ≤ length [1; 2; 6; 24])%nat →
     ∃ lines, printtree [1; 2; 6; 24] [[2; 3; 4]; [1; 1]] = Return lines ∧
              length lines = S (length [[2; 3; 4]; [1; 1]])) ∧
  ((length [1; 2; 6; 24] < 2)%nat →
     printtree [1; 2; 6; 24] [[2; 3; 4]; [1; 1]] = Raise ValueError).
Proof.
  apply (printtree_of_table [1; 2; 6; 24] (Many [div; sub])). reflexivity.
Defined.

(** *** How the rows are derived, and how the palette pairs undo each
    other *)

Lemma built_lookup rest row rows i above next :
  built rest row rows →
  rows !! i = Some above →
  rows !! S i = Some next →
  ∃ f, rest !! i = Some f ∧ get_subseq above f = Return next.
Proof.
  intros Hb. revert i.
  induction Hb as [rest row Hs|f rest row row1 rows Hc Hl Hnext Hb IH];
    intros i Ha Hn; [done|].
  destruct i as [|i].
  - cbn in Ha. injection Ha as <-.
    change (rows !! 0%nat = Some next) in Hn.
    pose proof (grown_head _ _ (built_grown _ _ _ Hb)) as Hhead.
    rewrite Hhead in Hn. injection Hn as <-. by exists f.
  - change (rows !! i = Some above) in Ha.
    change (rows !! S i = Some next) in Hn.
    by apply IH.
Qed.

(** The docstring of [get_subseqs]: row 0 of the table is [get_subseq] of
    the sequence under [ops[0]], and row [i + 1] is [get_subseq] of row
    [i] under [ops[i + 1]]. *)
Theorem get_subseqs_rows (s : list Z) (ops : schedule)
    (tbl : list (list Z)) :
  get_subseqs s ops = Return tbl →
  (∀ row0, tbl !! 0%nat = Some row0 →
     ∃ f, as_list (length s - 1) ops !! 0%nat = Some f ∧
          get_subseq s f = Return row0) ∧
  (∀ i above next, tbl !! i = Some above → tbl !! S i = Some next →
     ∃ f, as_list (length s - 1) ops !! S i = Some f ∧
          get_subseq above f = Return next).
Proof.
  intros Htbl. destruct (decide (length s < 2)%nat) as [Hs|Hs].
  { rewrite get_subseqs_lt_2 in Htbl by done. apply Return_inj in Htbl as <-.
    split; [by intros row0 ?|by intros i above next ?]. }
  apply get_subseqs_built in Htbl as (f & rest & row0 & -> & Hrow0 & Hb);
    [|lia].
  split.
  - intros row0' Hrow0'.
    rewrite (grown_head _ _ (built_grown _ _ _ Hb)) in Hrow0'.
    injection Hrow0' as <-. by exists f.
  - intros i above next Ha Hn. cbn. by apply (built_lookup rest row0 tbl).
Qed.

Lemma get_subseqs_rows_witness :
  (∀ row0, [[2; 3; 4]; [1; 1]] !! 0%nat = Some row0 →
     ∃ f, as_list (length [1; 2; 6; 24] - 1) (Many [div; sub]) !! 0%nat =
            Some f ∧
          get_subseq [1; 2; 6; 24] f = Return row0) ∧
  (∀ i above next,
     [[2; 3; 4]; [1; 1]] !! i = Some above →
     [[2; 3; 4]; [1; 1]] !! S i = Some next →
     ∃ f, as_list (length [1; 2; 6; 24] - 1) (Many [div; sub]) !! S i =
            Some f ∧
          get_subseq above f = Return next).
Proof.
  apply (get_subseqs_rows [1; 2; 6; 24] (Many [div; sub])). reflexivity.
Defined.

(** The palette pairs of [solve_seq] as round trips on one pair
    [(a, b)]: adding back what was subtracted always gives [b];
    multiplying back what was divided gives [b] exactly when [a] divides
    [b], and dividing by [a = 0] raises [ZeroDivisionError]. *)
Theorem palette_round_trips (a b : Z) :
  sub a b ≫= add a = Return b ∧
  (a ≠ 0 → (div a b ≫= mul a = Return b ↔ (a | b))) ∧
  (a = 0 → div a b ≫= mul a = Raise ZeroDivisionError).
Proof.
  split_and!.
  - unfold sub, add. cbn. f_equal. lia.
  - intros Ha. unfold div, mul.
    destruct (Z.eqb_spec a 0) as [?|_]; [done|]. cbn. split.
    + intros [= H]. exists (b / a). lia.
    + intros [q ->]. f_equal. rewrite Z.div_mul by done. lia.
  - intros ->. done.
Qed.
